(** * LZW codec of [lzw.py]: a shallow embedding and its properties

    The development follows the source file top to bottom: the prefix trie
    ([TrieNode], [Trie]), the compressor ([lzw_compress]) and the
    decompressor ([lzw_decompress]).  Python [bytes] are lists of [byte],
    integer codes are [Z], the [dict] objects are finite maps. *)

From Stdlib Require Import ZArith List Lia Sorted.
From Stdlib Require Import Init.Byte.
From stdpp Require Import base tactics option list countable gmap fin_maps.
Import ListNotations.

Local Open Scope Z_scope.

(** ** Bytes *)

(** The elements of a Python [bytes] object are the integers 0..255. *)
Definition byte_to_Z (b : byte) : Z := Z.of_N (Byte.to_N b).

(** [bytes([i])]; the source only builds it for [i] in [range(256)] or for
    an element of a [bytes] object, where it has exactly one element. *)
Definition bytes1 (i : Z) : list byte :=
  match Byte.of_N (Z.to_N i) with
  | Some b => [b]
  | None => []
  end.

#[global] Instance byte_eq_dec : EqDecision byte.
Proof.
  refine (fun x y => cast_if (decide (Byte.to_N x = Byte.to_N y)));
    [| congruence].
  apply (f_equal Byte.of_N) in e. rewrite !Byte.of_to_N in e. congruence.
Defined.

#[global] Instance byte_countable : Countable byte :=
  inj_countable Byte.to_N Byte.of_N Byte.of_to_N.

(** ** class TrieNode, class Trie *)

#[warnings="-register-all"]
Inductive TrieNode : Type :=
  mkTrieNode { children : gmap byte TrieNode; code : option Z }.

(** [TrieNode()] *)
Definition new_node : TrieNode := mkTrieNode ∅ None.

Record Trie : Type := mkTrie { root : TrieNode; next_code : Z }.

(** The walk of [Trie.insert] from [node] on: a missing child is created,
    the last node receives the code. *)
Fixpoint insert_from (node : TrieNode) (key : list byte) (c : Z) : TrieNode :=
  match key with
  | [] => mkTrieNode (children node) (Some c)
  | char :: key' =>
      let child := match children node !! char with
                   | Some n => n
                   | None => new_node
                   end in
      mkTrieNode (<[char := insert_from child key' c]> (children node)) (code node)
  end.

(** The walk of [Trie.search] from [node] on. *)
Fixpoint search_from (node : TrieNode) (key : list byte) : option Z :=
  match key with
  | [] => code node
  | char :: key' =>
      match children node !! char with
      | Some n => search_from n key'
      | None => None
      end
  end.

Definition insert (t : Trie) (key : list byte) (c : Z) : Trie :=
  mkTrie (insert_from (root t) key c) (next_code t).

Definition search (t : Trie) (key : list byte) : option Z :=
  search_from (root t) key.

Definition get_next_code (t : Trie) : Z * Trie :=
  (next_code t, mkTrie (root t) (next_code t + 1)).

(** [Trie()] *)
Definition new_trie : Trie := mkTrie new_node 256.

(** ** Exceptions *)

(** The three ways [lzw_decompress] can stop without returning. *)
Inductive exn : Type :=
| IndexError            (* [pop(0)] on an empty list *)
| KeyError (key : Z)    (* [table[key]] with [key] absent from the dict *)
| ValueError.           (* the explicit [raise ValueError] of the loop *)

Inductive result (A : Type) : Type :=
| Return (a : A)
| Raise (e : exn).
Arguments Return {A} a.
Arguments Raise {A} e.

Definition bind {A B} (r : result A) (k : A -> result B) : result B :=
  match r with
  | Return a => k a
  | Raise e => Raise e
  end.

Notation "x <- r ;; k" := (bind r (fun x => k))
  (at level 100, r at next level, right associativity).

(** [range(256)] *)
Definition range256 : list Z := seqZ 0 256.

(** [9 if variable_bits else max_bits] *)
Definition initial_code_size (max_bits : Z) (variable_bits : bool) : Z :=
  if variable_bits then 9 else max_bits.

(** The guard of the width growth, the same expression in both functions:
    [variable_bits and next_code >= max_table_size and
     current_code_size < max_bits]. *)
Definition must_grow (max_bits : Z) (variable_bits : bool)
    (next max_table_size current_code_size : Z) : bool :=
  variable_bits && (max_table_size <=? next) && (current_code_size <? max_bits).

(** ** lzw_compress *)

Module C.
(** The local variables of [lzw_compress].  [compressed_data] may hold
    whatever [Trie.search] returns, an integer or [None]. *)
Record state : Type := mk {
  trie : Trie;
  current_bytes : list byte;
  compressed_data : list (option Z);
  current_code_size : Z;
  max_table_size : Z
}.
End C.

(** The state when the loop over the input starts (lines 56-68).  For a
    negative exponent Python's [2 ** n] is a float in (0, 1); it compares
    with the integer counters, all at least 256, as [2 ^ n = 0] does. *)
Definition compress_init (max_bits : Z) (variable_bits : bool) : C.state :=
  let trie := fold_left (fun t i => insert t (bytes1 i) i) range256 new_trie in
  let current_code_size := initial_code_size max_bits variable_bits in
  C.mk trie [] [] current_code_size (2 ^ current_code_size).

(** One iteration of [for byte in input_bytes] (lines 72-86). *)
Definition compress_step (max_bits : Z) (variable_bits : bool)
    (s : C.state) (b : byte) : C.state :=
  let new_bytes := C.current_bytes s ++ [b] in
  match search (C.trie s) new_bytes with
  | Some _ =>
      C.mk (C.trie s) new_bytes (C.compressed_data s)
           (C.current_code_size s) (C.max_table_size s)
  | None =>
      let compressed_data :=
        C.compressed_data s ++ [search (C.trie s) (C.current_bytes s)] in
      let trie :=
        if next_code (C.trie s) <? C.max_table_size s
        then let '(c, t) := get_next_code (C.trie s) in insert t new_bytes c
        else C.trie s in
      if must_grow max_bits variable_bits (next_code trie)
           (C.max_table_size s) (C.current_code_size s)
      then C.mk trie [b] compressed_data
                (C.current_code_size s + 1) (2 ^ (C.current_code_size s + 1))
      else C.mk trie [b] compressed_data
                (C.current_code_size s) (C.max_table_size s)
  end.

Definition compress_loop (max_bits : Z) (variable_bits : bool)
    (input_bytes : list byte) : C.state :=
  fold_left (compress_step max_bits variable_bits) input_bytes
            (compress_init max_bits variable_bits).

(** The flush after the loop (lines 89-90). *)
Definition compress_flush (s : C.state) : list (option Z) :=
  match C.current_bytes s with
  | [] => C.compressed_data s
  | _ :: _ => C.compressed_data s ++ [search (C.trie s) (C.current_bytes s)]
  end.

Definition lzw_compress (input_bytes : list byte) (max_bits : Z)
    (variable_bits : bool) : list (option Z) * Z :=
  let s := compress_loop max_bits variable_bits input_bytes in
  (compress_flush s, C.current_code_size s).

(** ** lzw_decompress *)

Module D.
(** The local variables of [lzw_decompress]. *)
Record state : Type := mk {
  current_code_size : Z;
  max_table_size : Z;
  table : gmap Z (list byte);
  next_code : Z;
  current_bytes : list byte;
  decompressed_data : list (list byte)
}.
End D.

(** [{i: bytes([i]) for i in range(256)}] *)
Definition initial_table : gmap Z (list byte) :=
  fold_left (fun m i => <[i := bytes1 i]> m) range256 ∅.

(** [compressed_data.pop(0)]: the list after the call, and the popped
    element or the exception. *)
Definition pop0 (l : list Z) : list Z * result Z :=
  match l with
  | [] => ([], Raise IndexError)
  | c :: l' => (l', Return c)
  end.

(** Lines 102-110 once the first code is known. *)
Definition decompress_start (max_bits : Z) (variable_bits : bool)
    (current_code : Z) : result D.state :=
  let current_code_size := initial_code_size max_bits variable_bits in
  match initial_table !! current_code with
  | Some current_bytes =>
      Return (D.mk current_code_size (2 ^ current_code_size) initial_table 256
                   current_bytes [current_bytes])
  | None => Raise (KeyError current_code)
  end.

(** The [entry] of one iteration (lines 114-121). *)
Definition decode_entry (s : D.state) (c : Z) : result (list byte) :=
  match D.table s !! c with
  | Some entry => Return entry
  | None =>
      if c =? D.next_code s
      then Return (D.current_bytes s ++ take 1 (D.current_bytes s))
      else Raise ValueError
  end.

(** The rest of the iteration once [entry] is known (lines 123-135): the
    output grows, the table receives [current_bytes + entry[:1]] if there is
    room, the width grows if it must, and [entry] becomes [current_bytes]. *)
Definition decompress_update (max_bits : Z) (variable_bits : bool)
    (s : D.state) (entry : list byte) : D.state :=
  let decompressed_data := D.decompressed_data s ++ [entry] in
  let '(table, next) :=
    if D.next_code s <? D.max_table_size s
    then (<[D.next_code s := D.current_bytes s ++ take 1 entry]> (D.table s),
          D.next_code s + 1)
    else (D.table s, D.next_code s) in
  if must_grow max_bits variable_bits next
       (D.max_table_size s) (D.current_code_size s)
  then D.mk (D.current_code_size s + 1) (2 ^ (D.current_code_size s + 1))
            table next entry decompressed_data
  else D.mk (D.current_code_size s) (D.max_table_size s)
            table next entry decompressed_data.

(** One iteration of [for code in compressed_data] (lines 114-135). *)
Definition decompress_step (max_bits : Z) (variable_bits : bool)
    (s : D.state) (c : Z) : result D.state :=
  entry <- decode_entry s c ;;
  Return (decompress_update max_bits variable_bits s entry).

Fixpoint decompress_loop (max_bits : Z) (variable_bits : bool)
    (s : D.state) (codes : list Z) : result D.state :=
  match codes with
  | [] => Return s
  | c :: codes' =>
      s' <- decompress_step max_bits variable_bits s c ;;
      decompress_loop max_bits variable_bits s' codes'
  end.

(** The state of the decompressor when its loop ends, for a list that has
    a first element. *)
Definition decompress_run (max_bits : Z) (variable_bits : bool)
    (first : Z) (rest : list Z) : result D.state :=
  s <- decompress_start max_bits variable_bits first ;;
  decompress_loop max_bits variable_bits s rest.

(** [lzw_decompress]: the caller's list object after the call, and the
    returned bytes or the exception.  The loop iterates over the list that
    [pop(0)] has shortened. *)
Definition lzw_decompress (compressed_data : list Z) (max_bits : Z)
    (variable_bits : bool) : list Z * result (list byte) :=
  let '(compressed_data', popped) := pop0 compressed_data in
  (compressed_data',
   current_code <- popped ;;
   s <- decompress_run max_bits variable_bits current_code compressed_data' ;;
   Return (concat (D.decompressed_data s))).

(** * Vocabulary of the properties *)

(** The counter after the guarded allocation [if next < ceiling]. *)
Definition next_after (next max_table_size : Z) : Z :=
  if next <? max_table_size then next + 1 else next.

(** The trie and the code table hold the same (sequence, code) pairs. *)
Definition same_pairs (t : Trie) (table : gmap Z (list byte)) : Prop :=
  forall seq c, search t seq = Some c <-> table !! c = Some seq.

(** Compressing [x] gives integer codes only, and decompressing them gives
    [x] back. *)
Definition round_trip (x : list byte) (max_bits : Z) (variable_bits : bool)
    : Prop :=
  exists codes,
    fst (lzw_compress x max_bits variable_bits) = map Some codes
    /\ snd (lzw_decompress codes max_bits variable_bits) = Return x.

(** What the compressor keeps true on its own. *)
Record enc_inv (s : C.state) : Prop := {
  enc_singles : forall b, search (C.trie s) [b] = Some (byte_to_Z b);
  enc_current : C.current_bytes s = []
                \/ exists c, search (C.trie s) (C.current_bytes s) = Some c;
  enc_codes : exists cs, C.compressed_data s = map Some cs
}.

(** The decompressor as a machine fed one code at a time: [None] before the
    first code, [Some d] once its loop is in state [d]. *)
Inductive decodes (max_bits : Z) (variable_bits : bool)
    : list Z -> option D.state -> Prop :=
| decodes_nil : decodes max_bits variable_bits [] None
| decodes_first c d :
    decompress_start max_bits variable_bits c = Return d ->
    decodes max_bits variable_bits [c] (Some d)
| decodes_step cs d c d' :
    decodes max_bits variable_bits cs (Some d) ->
    decompress_step max_bits variable_bits d c = Return d' ->
    decodes max_bits variable_bits (cs ++ [c]) (Some d').

(** Every code of the table is below the counter. *)
Definition table_bound (d : D.state) : Prop :=
  forall c seq, D.table d !! c = Some seq -> c < D.next_code d.

(** Compressor state [s] after the input [p] and decompressor state [d]
    after the codes of [p], the flushed one included, agree. *)
Record sync (p : list byte) (s : C.state) (d : D.state) : Prop := {
  sync_pairs : same_pairs (C.trie s) (D.table d);
  sync_next : next_code (C.trie s) = D.next_code d;
  sync_size : C.current_code_size s = D.current_code_size d;
  sync_max : C.max_table_size s = D.max_table_size d;
  sync_bound : table_bound d;
  sync_current : D.current_bytes d = C.current_bytes s;
  sync_output : concat (D.decompressed_data d) = p;
  sync_nonempty : C.current_bytes s <> []
}.

(** Compressor state [s] after the input [p] against the decompressor
    that has consumed the codes emitted so far, the pending match of the
    compressor not yet among them: the decompressor is one registration
    behind, and catches up when it is given the pending match. *)
Definition lag (max_bits : Z) (variable_bits : bool)
    (p : list byte) (s : C.state) (pre : option D.state) : Prop :=
  match pre with
  | None =>
      C.current_bytes s = p /\ p <> []
      /\ same_pairs (C.trie s) initial_table
      /\ next_code (C.trie s) = 256
      /\ C.current_code_size s = initial_code_size max_bits variable_bits
      /\ C.max_table_size s = 2 ^ initial_code_size max_bits variable_bits
  | Some d =>
      D.current_bytes d <> [] /\ table_bound d
      /\ sync p s (decompress_update max_bits variable_bits d (C.current_bytes s))
  end.

(** The states the loop of [lzw_compress] goes through, the first one
    included. *)
Fixpoint compress_trace (max_bits : Z) (variable_bits : bool)
    (s : C.state) (input_bytes : list byte) : list C.state :=
  s :: match input_bytes with
       | [] => []
       | b :: rest =>
           compress_trace max_bits variable_bits
             (compress_step max_bits variable_bits s b) rest
       end.

(** The code widths of one compression run, in order. *)
Definition compress_widths (input_bytes : list byte) (max_bits : Z)
    (variable_bits : bool) : list Z :=
  map C.current_code_size
      (compress_trace max_bits variable_bits
         (compress_init max_bits variable_bits) input_bytes).

(** The states the loop of [lzw_decompress] goes through until it ends or
    raises. *)
Fixpoint decompress_trace (max_bits : Z) (variable_bits : bool)
    (s : D.state) (codes : list Z) : list D.state :=
  s :: match codes with
       | [] => []
       | c :: rest =>
           match decompress_step max_bits variable_bits s c with
           | Return s' => decompress_trace max_bits variable_bits s' rest
           | Raise _ => []
           end
       end.

(** The code widths of one decompression run, in order; a run that stops
    before its loop has only the initial width of line 102. *)
Definition decompress_widths (codes : list Z) (max_bits : Z)
    (variable_bits : bool) : list Z :=
  match codes with
  | [] => [initial_code_size max_bits variable_bits]
  | c :: rest =>
      match decompress_start max_bits variable_bits c with
      | Return s =>
          map D.current_code_size
              (decompress_trace max_bits variable_bits s rest)
      | Raise _ => [initial_code_size max_bits variable_bits]
      end
  end.

(** A width sequence of the adaptive mode: starts at 9, never decreases,
    never exceeds [max_bits]. *)
Definition adaptive_widths (max_bits : Z) (ws : list Z) : Prop :=
  head ws = Some 9 /\ Sorted Z.le ws /\ Forall (fun w => w <= max_bits) ws.

(** A width sequence of the fixed mode. *)
Definition fixed_widths (max_bits : Z) (ws : list Z) : Prop :=
  Forall (fun w => w = max_bits) ws.

(** During the compression of [x] the code [c] was allocated while the
    width was [w]: some step found its candidate absent from the trie and
    left it registered with code [c]. *)
Definition assigned_at (max_bits : Z) (variable_bits : bool)
    (x : list byte) (c w : Z) : Prop :=
  exists p b r,
    x = p ++ b :: r
    /\ search (C.trie (compress_loop max_bits variable_bits p))
              (C.current_bytes (compress_loop max_bits variable_bits p) ++ [b])
       = None
    /\ search (C.trie (compress_loop max_bits variable_bits (p ++ [b])))
              (C.current_bytes (compress_loop max_bits variable_bits p) ++ [b])
       = Some c
    /\ C.current_code_size (compress_loop max_bits variable_bits p) = w.

(** The code [c] is in range for the width under which it was assigned:
    the initial width for the 256 codes of the initialisation, the width of
    the allocating step for the others. *)
Definition code_in_range (max_bits : Z) (variable_bits : bool)
    (x : list byte) (c : Z) : Prop :=
  0 <= c
  /\ (c < 256 /\ c < 2 ^ initial_code_size max_bits variable_bits
      \/ exists w, assigned_at max_bits variable_bits x c w /\ c < 2 ^ w).

(** The table holds exactly the pairs of the trie whose code is below [n]. *)
Definition pairs_below (t : Trie) (table : gmap Z (list byte)) (n : Z) : Prop :=
  forall seq c, table !! c = Some seq <-> search t seq = Some c /\ c < n.

(** Dictionary parity whenever the token counts are equal: for the
    compressor after any prefix [p] of the input, and the decompressor
    after as many of the emitted codes. *)
Definition parity_at_equal_counts (x : list byte) (max_bits : Z)
    (variable_bits : bool) : Prop :=
  forall p r cs,
    x = p ++ r ->
    C.compressed_data (compress_loop max_bits variable_bits p) = map Some cs ->
    match cs with
    | [] =>
        same_pairs (C.trie (compress_loop max_bits variable_bits p))
                   initial_table
    | c :: cs' =>
        forall d,
          decompress_run max_bits variable_bits c cs' = Return d ->
          same_pairs (C.trie (compress_loop max_bits variable_bits p))
                     (D.table d)
    end.

(** Every code of the trie and every emitted code is in range; the ceiling
    is the power of two of the width. *)
Record range_inv (max_bits : Z) (variable_bits : bool) (p : list byte)
    : Prop := {
  range_trie : forall seq c, search (C.trie (compress_loop max_bits variable_bits p)) seq = Some c ->
                             code_in_range max_bits variable_bits p c;
  range_emitted : forall c, Some c ∈ C.compressed_data (compress_loop max_bits variable_bits p) ->
                            code_in_range max_bits variable_bits p c;
  range_ceiling : C.max_table_size (compress_loop max_bits variable_bits p) = 2 ^ C.current_code_size (compress_loop max_bits variable_bits p);
  range_next : 256 <= next_code (C.trie (compress_loop max_bits variable_bits p))
}.

(** The 256 initial entries of the code table stay where they are. *)
Definition table_singles (d : D.state) : Prop :=
  (forall i, 0 <= i < 256 -> D.table d !! i = Some (bytes1 i))
  /\ 256 <= D.next_code d.

(** The input of the concrete scenario, [b"TOBEORNOTTOBEORTOBEORNOT"]. *)
Definition TOBEORNOT : list byte :=
  [x54;x4f;x42;x45;x4f;x52;x4e;x4f;x54;x54;x4f;x42;x45;x4f;x52;
   x54;x4f;x42;x45;x4f;x52;x4e;x4f;x54].

(** The width state [(next code, width, ceiling)] that both functions
    thread through their loops is consistent: the ceiling is the power of two
    of the width, the counter never passes it, the width is the smallest one
    (from the initial width on) that the counter fits in, up to [max_bits]. *)
Record width_inv (max_bits : Z) (variable_bits : bool) (n w m : Z) : Prop := {
  wi_ceiling : m = 2 ^ w;
  wi_next_lo : 256 <= n;
  wi_next_hi : n <= m;
  wi_width_lo : initial_code_size max_bits variable_bits <= w;
  wi_width_hi : w <= max_bits;
  wi_tight_lo : w = initial_code_size max_bits variable_bits \/ 2 ^ (w - 1) <= n;
  wi_tight_hi : n < m \/ w = max_bits
}.

(** The codes of the table are exactly the integers below the counter. *)
Definition table_dense (d : D.state) : Prop :=
  forall c, is_Some (D.table d !! c) <-> 0 <= c < D.next_code d.

(** The codes of the trie are exactly the integers below the counter, and no
    two sequences share one. *)
Record codes_inv (t : Trie) : Prop := {
  codes_range : forall seq c, search t seq = Some c -> 0 <= c < next_code t;
  codes_dense : forall c, 0 <= c < next_code t ->
                          exists seq, search t seq = Some c;
  codes_inj : forall s1 s2 c, search t s1 = Some c -> search t s2 = Some c ->
                              s1 = s2
}.

(** The empty sequence has no code, and a registered sequence of two bytes
    or more has its immediate prefix registered. *)
Record prefix_closed (t : Trie) : Prop := {
  pc_empty : search t [] = None;
  pc_prefix : forall seq b, seq <> [] -> is_Some (search t (seq ++ [b])) ->
                            is_Some (search t seq)
}.

(** Nothing empty in the decompressor: table entries, previous sequence and
    output chunks all have at least one byte. *)
Record chunks_nonempty (d : D.state) : Prop := {
  cn_table : forall c seq, D.table d !! c = Some seq -> seq <> [];
  cn_current : D.current_bytes d <> [];
  cn_output : Forall (fun chunk => chunk <> []) (D.decompressed_data d)
}.

(** Two compressor states that differ in the width state only. *)
Definition same_dictionary (s1 s2 : C.state) : Prop :=
  C.trie s1 = C.trie s2
  /\ C.current_bytes s1 = C.current_bytes s2
  /\ C.compressed_data s1 = C.compressed_data s2.

(** Two decompressor states that differ in the width state only. *)
Definition same_decoding (d1 d2 : D.state) : Prop :=
  D.table d1 = D.table d2
  /\ D.next_code d1 = D.next_code d2
  /\ D.current_bytes d1 = D.current_bytes d2
  /\ D.decompressed_data d1 = D.decompressed_data d2.

(** * Properties *)

(** ** The trie as a partial map from byte sequences to codes *)

Lemma search_from_new_node (key : list byte) : search_from new_node key = None.
Proof. destruct key; simpl; [done | by rewrite lookup_empty]. Qed.

Lemma search_from_insert_from (key : list byte) :
  forall (node : TrieNode) (c : Z) (key' : list byte),
    search_from (insert_from node key c) key'
    = if decide (key' = key) then Some c else search_from node key'.
Proof.
  induction key as [|a key IH]; intros node c [|b key'];
    cbn [search_from insert_from code children].
  - by rewrite decide_True.
  - by rewrite decide_False.
  - by rewrite decide_False.
  - destruct (decide (a = b)) as [->|Hab].
    + rewrite lookup_insert_eq, IH.
      destruct (decide (key' = key)) as [->|Hk].
      * by rewrite decide_True.
      * rewrite decide_False by congruence.
        destruct (children node !! b); [done | apply search_from_new_node].
    + rewrite lookup_insert_ne by done.
      by rewrite decide_False by congruence.
Qed.

Lemma search_insert (t : Trie) (key key' : list byte) (c : Z) :
  search (insert t key c) key'
  = if decide (key' = key) then Some c else search t key'.
Proof. apply search_from_insert_from. Qed.

Lemma search_new_trie (key : list byte) : search new_trie key = None.
Proof. apply search_from_new_node. Qed.

(** ** The 256 initial entries *)

Lemma bytes1_byte_to_Z (b : byte) : bytes1 (byte_to_Z b) = [b].
Proof.
  unfold bytes1, byte_to_Z. by rewrite N2Z.id, Byte.of_to_N.
Qed.

Lemma byte_to_Z_range (b : byte) : 0 <= byte_to_Z b < 256.
Proof.
  unfold byte_to_Z. pose proof (Byte.to_N_bounded b). lia.
Qed.

Lemma bytes1_range (i : Z) :
  0 <= i < 256 -> exists b, bytes1 i = [b] /\ byte_to_Z b = i.
Proof.
  intros Hi. unfold bytes1.
  destruct (Byte.of_N (Z.to_N i)) as [b|] eqn:Hb.
  - exists b. split; [done|]. apply Byte.to_of_N in Hb.
    unfold byte_to_Z. rewrite Hb. lia.
  - apply Byte.of_N_None_iff in Hb. lia.
Qed.

Lemma bytes1_inj (i j : Z) :
  0 <= i < 256 -> 0 <= j < 256 -> bytes1 i = bytes1 j -> i = j.
Proof.
  intros Hi Hj H.
  destruct (bytes1_range i Hi) as (b & Hb & <-).
  destruct (bytes1_range j Hj) as (b' & Hb' & <-).
  congruence.
Qed.

Lemma elem_of_range256 (i : Z) : i ∈ range256 <-> 0 <= i < 256.
Proof. unfold range256. rewrite elem_of_seqZ. lia. Qed.

Lemma search_fold_insert (l : list Z) (seq : list byte) (c : Z) :
  (forall i j, i ∈ l -> j ∈ l -> bytes1 i = bytes1 j -> i = j) ->
  search (fold_left (fun t i => insert t (bytes1 i) i) l new_trie) seq = Some c
  <-> c ∈ l /\ seq = bytes1 c.
Proof.
  induction l as [|a l IH] using rev_ind; intros Hinj.
  - simpl. rewrite search_new_trie. split; [done|].
    intros [H _]. by apply elem_of_nil in H.
  - rewrite fold_left_app. simpl. rewrite search_insert.
    destruct (decide (seq = bytes1 a)) as [->|Hne].
    + split.
      * intros [= ->]. split; [apply elem_of_app; right; constructor | done].
      * intros [Hc Heq]. f_equal.
        apply Hinj; [apply elem_of_app; right; constructor | done | done].
    + rewrite IH
        by (intros i j Hi Hj; apply Hinj; apply elem_of_app; by left).
      split.
      * intros [Hc ->]. split; [apply elem_of_app; by left | done].
      * intros [Hc ->]. split; [|done].
        apply elem_of_app in Hc as [Hc|Hc]; [done|].
        apply list_elem_of_singleton in Hc. congruence.
Qed.

Lemma lookup_fold_insert (l : list Z) (seq : list byte) (c : Z) :
  fold_left (fun m i => <[i := bytes1 i]> m) l (∅ : gmap Z (list byte)) !! c
    = Some seq
  <-> c ∈ l /\ seq = bytes1 c.
Proof.
  induction l as [|a l IH] using rev_ind.
  - simpl. rewrite lookup_empty. split; [done|].
    intros [H _]. by apply elem_of_nil in H.
  - rewrite fold_left_app. simpl.
    destruct (decide (a = c)) as [->|Hne].
    + rewrite lookup_insert_eq. split.
      * intros [= <-]. split; [apply elem_of_app; right; constructor | done].
      * by intros [_ ->].
    + rewrite lookup_insert_ne by done. rewrite IH. split.
      * intros [Hc ->]. split; [apply elem_of_app; by left | done].
      * intros [Hc ->]. split; [|done].
        apply elem_of_app in Hc as [Hc|Hc]; [done|].
        apply list_elem_of_singleton in Hc. congruence.
Qed.

Lemma initial_table_lookup (c : Z) (seq : list byte) :
  initial_table !! c = Some seq <-> 0 <= c < 256 /\ seq = bytes1 c.
Proof.
  unfold initial_table. by rewrite lookup_fold_insert, elem_of_range256.
Qed.

Lemma initial_trie_search (max_bits : Z) (variable_bits : bool)
    (seq : list byte) (c : Z) :
  search (C.trie (compress_init max_bits variable_bits)) seq = Some c
  <-> 0 <= c < 256 /\ seq = bytes1 c.
Proof.
  unfold compress_init. cbn [C.trie].
  rewrite search_fold_insert, elem_of_range256; [done|].
  intros i j Hi Hj. apply bytes1_inj; by apply elem_of_range256.
Qed.

Lemma initial_next_code (max_bits : Z) (variable_bits : bool) :
  next_code (C.trie (compress_init max_bits variable_bits)) = 256.
Proof.
  unfold compress_init. cbn [C.trie]. generalize range256. intros l.
  assert (H : forall t, next_code (fold_left (fun t i => insert t (bytes1 i) i) l t)
                        = next_code t).
  { induction l as [|a l IH]; intros t; simpl; [done | by rewrite IH]. }
  by rewrite H.
Qed.

Lemma compress_init_fields (max_bits : Z) (variable_bits : bool) :
  let s := compress_init max_bits variable_bits in
  C.current_bytes s = [] /\ C.compressed_data s = []
  /\ C.current_code_size s = initial_code_size max_bits variable_bits
  /\ C.max_table_size s = 2 ^ initial_code_size max_bits variable_bits.
Proof. unfold compress_init. cbn [C.current_bytes]. repeat split. Qed.

Lemma compress_init_trie (max_bits max_bits' : Z)
    (variable_bits variable_bits' : bool) :
  C.trie (compress_init max_bits variable_bits)
  = C.trie (compress_init max_bits' variable_bits').
Proof. reflexivity. Qed.

Lemma compress_init_variable (max_bits : Z) :
  compress_init max_bits true = compress_init 9 true.
Proof. unfold compress_init, initial_code_size. reflexivity. Qed.

(** From here on the initial trie and table are used through the lemmas
    above only. *)
#[global] Opaque compress_init initial_table.

(** ** The shape of one compressor step *)

Section Codec.
Variables (max_bits : Z) (variable_bits : bool).

Abbreviation init := (compress_init max_bits variable_bits).
Abbreviation cstep := (compress_step max_bits variable_bits).
Abbreviation cloop := (compress_loop max_bits variable_bits).

Lemma compress_loop_snoc (p : list byte) (b : byte) :
  cloop (p ++ [b]) = cstep (cloop p) b.
Proof. unfold compress_loop. by rewrite fold_left_app. Qed.

Lemma compress_step_hit (s : C.state) (b : byte) (c : Z) :
  search (C.trie s) (C.current_bytes s ++ [b]) = Some c ->
  cstep s b = C.mk (C.trie s) (C.current_bytes s ++ [b]) (C.compressed_data s)
                   (C.current_code_size s) (C.max_table_size s).
Proof. intros H. unfold compress_step. by rewrite H. Qed.

Lemma compress_step_miss (s : C.state) (b : byte) :
  search (C.trie s) (C.current_bytes s ++ [b]) = None ->
  let n := next_code (C.trie s) in
  let grow := must_grow max_bits variable_bits
                (next_after n (C.max_table_size s))
                (C.max_table_size s) (C.current_code_size s) in
  C.trie (cstep s b)
    = (if n <? C.max_table_size s
       then insert (mkTrie (root (C.trie s)) (n + 1))
                   (C.current_bytes s ++ [b]) n
       else C.trie s)
  /\ next_code (C.trie (cstep s b)) = next_after n (C.max_table_size s)
  /\ C.current_bytes (cstep s b) = [b]
  /\ C.compressed_data (cstep s b)
     = C.compressed_data s ++ [search (C.trie s) (C.current_bytes s)]
  /\ C.current_code_size (cstep s b)
     = (if grow then C.current_code_size s + 1 else C.current_code_size s)
  /\ C.max_table_size (cstep s b)
     = (if grow then 2 ^ (C.current_code_size s + 1) else C.max_table_size s).
Proof.
  intros H n grow. subst grow n. unfold compress_step, next_after.
  rewrite H. cbn [get_next_code].
  destruct (next_code (C.trie s) <? C.max_table_size s);
    cbn [insert next_code];
    destruct (must_grow _ _ _ _ _); cbn; done.
Qed.

Lemma search_insert_fresh (t : Trie) (n : Z) (key key' : list byte) (c : Z) :
  search (insert (mkTrie (root t) n) key c) key'
  = if decide (key' = key) then Some c else search t key'.
Proof. apply search_from_insert_from. Qed.

(** ** What the compressor keeps true on its own *)

Lemma compress_flush_pending (s : C.state) (c : Z) :
  C.current_bytes s <> [] ->
  search (C.trie s) (C.current_bytes s) = Some c ->
  compress_flush s = C.compressed_data s ++ [Some c].
Proof.
  intros Hne Hc. unfold compress_flush. rewrite Hc.
  by destruct (C.current_bytes s).
Qed.

Lemma enc_inv_init : enc_inv init.
Proof.
  split.
  - intros b. apply initial_trie_search. split.
    + apply byte_to_Z_range.
    + by rewrite bytes1_byte_to_Z.
  - by left.
  - by exists [].
Qed.

Lemma enc_inv_step (s : C.state) (b : byte) : enc_inv s -> enc_inv (cstep s b).
Proof.
  intros [Hs Hc [cs Hcs]].
  destruct (search (C.trie s) (C.current_bytes s ++ [b])) as [c|] eqn:Hnew.
  - rewrite (compress_step_hit _ _ _ Hnew). split; cbn; eauto.
  - destruct (compress_step_miss s b Hnew) as (Ht & _ & Hcur & Hcd & _ & _).
    assert (Hne : C.current_bytes s <> []).
    { intros E. rewrite E, app_nil_l, Hs in Hnew. done. }
    destruct Hc as [Hc|[c Hc]]; [done|].
    assert (Hsingle : forall b', search (C.trie (cstep s b)) [b']
                                 = Some (byte_to_Z b')).
    { intros b'. rewrite Ht.
      destruct (next_code (C.trie s) <? C.max_table_size s); [|done].
      rewrite search_insert_fresh, decide_False; [done|].
      destruct (C.current_bytes s); [done|]. by destruct l. }
    split.
    + done.
    + right. rewrite Hcur. eauto.
    + exists (cs ++ [c]). by rewrite Hcd, Hcs, Hc, map_app.
Qed.

Lemma enc_inv_loop (p : list byte) : enc_inv (cloop p).
Proof.
  induction p as [|b p IH] using rev_ind.
  - apply enc_inv_init.
  - rewrite compress_loop_snoc. by apply enc_inv_step.
Qed.

Lemma current_nonempty (p : list byte) :
  p <> [] -> C.current_bytes (cloop p) <> [].
Proof.
  destruct p as [|b p _] using rev_ind; [done|]. intros _.
  rewrite compress_loop_snoc.
  destruct (search (C.trie (cloop p)) (C.current_bytes (cloop p) ++ [b]))
    as [c|] eqn:Hnew.
  - rewrite (compress_step_hit _ _ _ Hnew). cbn.
    by destruct (C.current_bytes (cloop p)).
  - destruct (compress_step_miss _ b Hnew) as (_ & _ & -> & _). done.
Qed.
End Codec.

(** ** The shape of one decompressor step *)

Section Decoder.
Variables (max_bits : Z) (variable_bits : bool).

Abbreviation dupdate := (decompress_update max_bits variable_bits).
Abbreviation dstep := (decompress_step max_bits variable_bits).
Abbreviation dloop := (decompress_loop max_bits variable_bits).
Abbreviation dstart := (decompress_start max_bits variable_bits).
Abbreviation drun := (decompress_run max_bits variable_bits).

Lemma decompress_update_fields (d : D.state) (entry : list byte) :
  let n := D.next_code d in
  let grow := must_grow max_bits variable_bits
                (next_after n (D.max_table_size d))
                (D.max_table_size d) (D.current_code_size d) in
  D.table (dupdate d entry)
    = (if n <? D.max_table_size d
       then <[n := D.current_bytes d ++ take 1 entry]> (D.table d)
       else D.table d)
  /\ D.next_code (dupdate d entry) = next_after n (D.max_table_size d)
  /\ D.current_bytes (dupdate d entry) = entry
  /\ D.decompressed_data (dupdate d entry) = D.decompressed_data d ++ [entry]
  /\ D.current_code_size (dupdate d entry)
     = (if grow then D.current_code_size d + 1 else D.current_code_size d)
  /\ D.max_table_size (dupdate d entry)
     = (if grow then 2 ^ (D.current_code_size d + 1) else D.max_table_size d).
Proof.
  intros n grow. subst grow n. unfold decompress_update, next_after.
  destruct (D.next_code d <? D.max_table_size d);
    destruct (must_grow _ _ _ _ _); cbn; done.
Qed.

Lemma decompress_loop_app (d : D.state) (cs cs' : list Z) :
  dloop d (cs ++ cs') = (d' <- dloop d cs ;; dloop d' cs').
Proof.
  revert d. induction cs as [|c cs IH]; intros d; [done|].
  cbn [app decompress_loop]. destruct (dstep d c) as [d1|e]; cbn; [apply IH | done].
Qed.

Lemma decodes_None (cs : list Z) :
  decodes max_bits variable_bits cs None -> cs = [].
Proof. by inversion 1. Qed.

Lemma decodes_Some (cs : list Z) (d : D.state) :
  decodes max_bits variable_bits cs (Some d) ->
  exists c cs', cs = c :: cs' /\ drun c cs' = Return d.
Proof.
  intros H. remember (Some d) as pre eqn:Hpre. revert d Hpre.
  induction H as [|c d0 Hstart|cs d0 c d1 Hdec IH Hstep]; intros d [= <-].
  - exists c, []. split; [done|]. unfold decompress_run. by rewrite Hstart.
  - destruct (IH d0 eq_refl) as (c0 & cs0 & -> & Hrun).
    exists c0, (cs0 ++ [c]). split; [done|].
    unfold decompress_run in *.
    destruct (dstart c0) as [d2|e]; [|done]. cbn in *.
    rewrite decompress_loop_app, Hrun. cbn. by rewrite Hstep.
Qed.

Lemma table_bound_update (d : D.state) (entry : list byte) :
  table_bound d -> table_bound (dupdate d entry).
Proof.
  intros Hb c seq.
  destruct (decompress_update_fields d entry) as (-> & -> & _).
  unfold next_after.
  destruct (D.next_code d <? D.max_table_size d).
  - destruct (decide (c = D.next_code d)) as [->|Hne]; [lia|].
    rewrite lookup_insert_ne by done. intros H. apply Hb in H. lia.
  - apply Hb.
Qed.

(** The same first byte gives the same registration. *)
Lemma decompress_update_take (d : D.state) (e e' : list byte) :
  take 1 e = take 1 e' ->
  D.table (dupdate d e) = D.table (dupdate d e')
  /\ D.next_code (dupdate d e) = D.next_code (dupdate d e')
  /\ D.current_code_size (dupdate d e) = D.current_code_size (dupdate d e')
  /\ D.max_table_size (dupdate d e) = D.max_table_size (dupdate d e').
Proof.
  intros H.
  destruct (decompress_update_fields d e) as (-> & -> & _ & _ & -> & ->).
  destruct (decompress_update_fields d e') as (-> & -> & _ & _ & -> & ->).
  by rewrite H.
Qed.

Lemma same_pairs_insert (t : Trie) (table : gmap Z (list byte))
    (key : list byte) (c n : Z) :
  same_pairs t table -> search t key = None -> table !! c = None ->
  same_pairs (insert (mkTrie (root t) n) key c) (<[c := key]> table).
Proof.
  intros Hp Hkey Hc seq c'. rewrite search_insert_fresh. split.
  - destruct (decide (seq = key)) as [->|Hne].
    + intros [= <-]. by rewrite lookup_insert_eq.
    + intros H. apply Hp in H.
      rewrite lookup_insert_ne; [done | congruence].
  - destruct (decide (c = c')) as [<-|Hne].
    + rewrite lookup_insert_eq. intros [= <-]. by rewrite decide_True.
    + rewrite lookup_insert_ne by done. intros H. apply Hp in H.
      rewrite decide_False; [done | congruence].
Qed.
End Decoder.

(** ** Compressor and decompressor in lock-step *)

Section Lockstep.
Variables (max_bits : Z) (variable_bits : bool).

Abbreviation cstep := (compress_step max_bits variable_bits).
Abbreviation cloop := (compress_loop max_bits variable_bits).
Abbreviation dupdate := (decompress_update max_bits variable_bits).
Abbreviation dec := (decodes max_bits variable_bits).
Abbreviation lagging := (lag max_bits variable_bits).

Lemma take1_app (l l' : list byte) : l <> [] -> take 1 (l ++ l') = take 1 l.
Proof. by destruct l. Qed.

(** The pending match of the compressor is what the decompressor finds for
    its code, in the table or through the forward reference. *)
Lemma decode_entry_pending (p : list byte) (s : C.state) (d : D.state) (c : Z) :
  lagging p s (Some d) ->
  search (C.trie s) (C.current_bytes s) = Some c ->
  decode_entry d c = Return (C.current_bytes s).
Proof.
  intros (Hprev & Hbound & Hsync) Hc.
  apply (sync_pairs _ _ _ Hsync) in Hc.
  destruct (decompress_update_fields max_bits variable_bits d (C.current_bytes s))
    as (Ht & _).
  rewrite Ht in Hc. clear Ht. unfold decode_entry.
  destruct (D.table d !! c) as [e|] eqn:He.
  - destruct (D.next_code d <? D.max_table_size d); [|congruence].
    pose proof (Hbound _ _ He).
    rewrite lookup_insert_ne in Hc by lia. congruence.
  - destruct (D.next_code d <? D.max_table_size d); [|congruence].
    destruct (decide (D.next_code d = c)) as [<-|Hne].
    + rewrite Z.eqb_refl. rewrite lookup_insert_eq in Hc.
      injection Hc as Hc. f_equal.
      assert (Ht : take 1 (C.current_bytes s) = take 1 (D.current_bytes d))
        by (rewrite <- Hc at 1; by apply take1_app).
      by rewrite <- Ht.
    + rewrite lookup_insert_ne in Hc by done. congruence.
Qed.

(** Given the code of the pending match, the decompressor catches up. *)
Lemma decodes_pending (p : list byte) (s : C.state) (cs : list Z)
    (pre : option D.state) (c : Z) :
  dec cs pre -> lagging p s pre ->
  search (C.trie s) (C.current_bytes s) = Some c ->
  exists d, dec (cs ++ [c]) (Some d) /\ sync p s d.
Proof.
  intros Hdec Hlag Hc. destruct pre as [d|].
  - exists (dupdate d (C.current_bytes s)). split; [|apply Hlag].
    apply decodes_step with d; [done|].
    unfold decompress_step.
    by rewrite (decode_entry_pending _ _ _ _ Hlag Hc).
  - apply decodes_None in Hdec as ->.
    destruct Hlag as (Hcur & Hne & Hpairs & Hnext & Hsize & Hmax).
    pose proof Hc as Hc'. apply Hpairs in Hc'.
    eexists. split.
    + apply decodes_first. unfold decompress_start. by rewrite Hc'.
    + split; cbn [D.table D.next_code D.current_code_size D.max_table_size
                   D.current_bytes D.decompressed_data concat].
      * done.
      * done.
      * done.
      * done.
      * intros c' seq H. cbn [D.table D.next_code] in H |- *.
        apply initial_table_lookup in H. lia.
      * done.
      * by rewrite app_nil_r.
      * congruence.
Qed.

Lemma lag_step (p : list byte) (s : C.state) (cs : list Z)
    (pre : option D.state) (b : byte) :
  enc_inv s -> C.compressed_data s = map Some cs ->
  dec cs pre -> lagging p s pre ->
  exists cs' pre',
    C.compressed_data (cstep s b) = map Some cs'
    /\ dec cs' pre' /\ lagging (p ++ [b]) (cstep s b) pre'.
Proof.
  intros Hinv Hcs Hdec Hlag.
  assert (Hne : C.current_bytes s <> []).
  { destruct pre; [apply Hlag | destruct Hlag as (-> & ? & _); done]. }
  destruct (search (C.trie s) (C.current_bytes s ++ [b])) as [c'|] eqn:Hnew.
  - (* the match grows: nothing is emitted *)
    rewrite (compress_step_hit _ _ _ _ _ Hnew).
    exists cs, pre. split; [done|]. split; [done|].
    destruct pre as [d|]; cbn.
    + destruct Hlag as (Hprev & Hbound & Hsync).
      split; [done|]. split; [done|].
      destruct (decompress_update_take max_bits variable_bits d
                  (C.current_bytes s ++ [b]) (C.current_bytes s))
        as (Ht & Hn & Hw & Hm); [by apply take1_app|].
      destruct Hsync as [H1 H2 H3 H4 H5 H6 H7 H8].
      destruct (decompress_update_fields max_bits variable_bits d
                  (C.current_bytes s ++ [b])) as (_ & _ & Hcur & Hout & _ & _).
      destruct (decompress_update_fields max_bits variable_bits d
                  (C.current_bytes s)) as (_ & _ & _ & Hout' & _ & _).
      split; cbn.
      * by rewrite Ht.
      * by rewrite Hn.
      * by rewrite Hw.
      * by rewrite Hm.
      * intros c seq. unfold table_bound in H5. rewrite Ht, Hn. apply H5.
      * done.
      * rewrite Hout, concat_app. rewrite Hout', concat_app in H7.
        cbn in *. rewrite !app_nil_r in *. rewrite <- H7.
        by rewrite <- !app_assoc.
      * by destruct (C.current_bytes s).
    + destruct Hlag as (Hcur & Hp & Hpairs & Hnext & Hsize & Hmax).
      rewrite Hcur. split; [done|]. split; [by destruct p | done].
  - (* the match ends: its code is emitted, the extension registered *)
    destruct (enc_current _ Hinv) as [?|[c Hc]]; [done|].
    destruct (decodes_pending _ _ _ _ _ Hdec Hlag Hc) as (d & Hdec' & Hsync).
    destruct (compress_step_miss max_bits variable_bits s b Hnew)
      as (Ht & Hn & Hcur & Hcd & Hw & Hm).
    exists (cs ++ [c]), (Some d). split; [|split; [done|]].
    { by rewrite Hcd, Hcs, Hc, map_app. }
    destruct Hsync as [H1 H2 H3 H4 H5 H6 H7 H8].
    cbn. split; [congruence|]. split; [done|].
    destruct (decompress_update_fields max_bits variable_bits d
                (C.current_bytes (cstep s b)))
      as (Ht' & Hn' & Hcur' & Hout' & Hw' & Hm').
    split.
    + rewrite Ht, Ht', H2, H4, H6, Hcur. cbn [take].
      destruct (D.next_code d <? D.max_table_size d); [|done].
      apply same_pairs_insert; [done | done |].
      destruct (D.table d !! D.next_code d) eqn:E; [|done].
      apply H5 in E. lia.
    + by rewrite Hn, Hn', H2, H4.
    + by rewrite Hw, Hw', H2, H3, H4.
    + by rewrite Hm, Hm', H2, H3, H4.
    + by apply table_bound_update.
    + done.
    + by rewrite Hout', concat_app, H7, Hcur.
    + by rewrite Hcur.
Qed.

(** After any non-empty input the decompressor can consume the codes
    emitted so far and is one registration behind the compressor. *)
Lemma lag_loop (p : list byte) :
  p <> [] ->
  exists cs pre,
    C.compressed_data (cloop p) = map Some cs
    /\ dec cs pre /\ lagging p (cloop p) pre.
Proof.
  induction p as [|b p IH] using rev_ind; [done|]. intros _.
  rewrite compress_loop_snoc.
  destruct (decide (p = [])) as [->|Hp].
  - exists [], None. cbn [app].
    change (compress_loop max_bits variable_bits [])
      with (compress_init max_bits variable_bits).
    destruct (compress_init_fields max_bits variable_bits)
      as (Hcur & Hcd & Hw & Hm).
    assert (Hb : search (C.trie (compress_init max_bits variable_bits))
                   (C.current_bytes (compress_init max_bits variable_bits) ++ [b])
                 = Some (byte_to_Z b)).
    { rewrite Hcur. apply (enc_singles _ (enc_inv_init max_bits variable_bits)). }
    rewrite (compress_step_hit _ _ _ _ _ Hb), Hcur, Hcd, Hw, Hm.
    split; [done|]. split; [constructor|].
    unfold lag.
    cbn [C.trie C.current_bytes C.current_code_size C.max_table_size app].
    split; [reflexivity|]. split; [discriminate|].
    split; [|split; [|split; reflexivity]].
    + intros seq c. rewrite initial_trie_search, initial_table_lookup.
      reflexivity.
    + apply initial_next_code.
  - destruct (IH Hp) as (cs & pre & Hcs & Hdec & Hlag).
    apply lag_step with cs pre; try done. apply enc_inv_loop.
Qed.

(** After a complete run on a non-empty input both sides agree. *)
Lemma sync_run (x : list byte) :
  x <> [] ->
  exists c cs d,
    fst (lzw_compress x max_bits variable_bits) = map Some (c :: cs)
    /\ decompress_run max_bits variable_bits c cs = Return d
    /\ sync x (cloop x) d.
Proof.
  intros Hx.
  destruct (lag_loop x Hx) as (cs & pre & Hcs & Hdec & Hlag).
  pose proof (current_nonempty max_bits variable_bits x Hx) as Hne.
  destruct (enc_current _ (enc_inv_loop max_bits variable_bits x))
    as [?|[c Hc]]; [done|].
  destruct (decodes_pending _ _ _ _ _ Hdec Hlag Hc) as (d & Hdec' & Hsync).
  apply decodes_Some in Hdec' as (c0 & cs0 & Heq & Hrun).
  exists c0, cs0, d. split; [|split; assumption].
  unfold lzw_compress. cbn [fst].
  rewrite (compress_flush_pending _ c Hne Hc), Hcs, <- Heq.
  symmetry. apply map_app.
Qed.

(** What [lzw_decompress] returns when its loop ends in state [d]. *)
Lemma decompress_of_run (c : Z) (cs : list Z) (d : D.state) :
  decompress_run max_bits variable_bits c cs = Return d ->
  lzw_decompress (c :: cs) max_bits variable_bits
  = (cs, Return (concat (D.decompressed_data d))).
Proof.
  intros Hrun. unfold lzw_decompress. cbn [pop0 bind]. by rewrite Hrun.
Qed.
End Lockstep.

(** ** Code widths *)

Section Widths.
Variables (max_bits : Z) (variable_bits : bool).

Lemma must_grow_true (n m w : Z) :
  must_grow max_bits variable_bits n m w = true ->
  variable_bits = true /\ w < max_bits.
Proof.
  unfold must_grow. intros H.
  apply andb_prop in H as [H Hw]. apply andb_prop in H as [Hv _].
  split; [done | lia].
Qed.

Lemma compress_step_width (s : C.state) (b : byte) :
  C.current_code_size (compress_step max_bits variable_bits s b)
    = C.current_code_size s
  \/ variable_bits = true /\ C.current_code_size s < max_bits
     /\ C.current_code_size (compress_step max_bits variable_bits s b)
        = C.current_code_size s + 1.
Proof.
  destruct (search (C.trie s) (C.current_bytes s ++ [b])) as [c|] eqn:Hnew.
  - left. by rewrite (compress_step_hit _ _ _ _ _ Hnew).
  - destruct (compress_step_miss max_bits variable_bits s b Hnew)
      as (_ & _ & _ & _ & -> & _).
    destruct (must_grow _ _ _ _ _) eqn:Hg; [|by left].
    right. apply must_grow_true in Hg as [? ?]. done.
Qed.

Lemma decompress_update_width (d : D.state) (entry : list byte) :
  D.current_code_size (decompress_update max_bits variable_bits d entry)
    = D.current_code_size d
  \/ variable_bits = true /\ D.current_code_size d < max_bits
     /\ D.current_code_size (decompress_update max_bits variable_bits d entry)
        = D.current_code_size d + 1.
Proof.
  destruct (decompress_update_fields max_bits variable_bits d entry)
    as (_ & _ & _ & _ & -> & _).
  destruct (must_grow _ _ _ _ _) eqn:Hg; [|by left].
  right. apply must_grow_true in Hg as [? ?]. done.
Qed.

Lemma decompress_step_width (d d' : D.state) (c : Z) :
  decompress_step max_bits variable_bits d c = Return d' ->
  D.current_code_size d' = D.current_code_size d
  \/ variable_bits = true /\ D.current_code_size d < max_bits
     /\ D.current_code_size d' = D.current_code_size d + 1.
Proof.
  unfold decompress_step. destruct (decode_entry d c) as [entry|e]; [|done].
  cbn [bind]. intros [= <-]. apply decompress_update_width.
Qed.

Lemma compress_trace_widths (input_bytes : list byte) :
  forall s,
    let ws := map C.current_code_size
                  (compress_trace max_bits variable_bits s input_bytes) in
    head ws = Some (C.current_code_size s)
    /\ (C.current_code_size s <= max_bits ->
        Sorted Z.le ws
        /\ Forall (fun w => C.current_code_size s <= w <= max_bits) ws)
    /\ (variable_bits = false ->
        Forall (fun w => w = C.current_code_size s) ws).
Proof.
  induction input_bytes as [|b rest IH]; intros s ws; subst ws.
  - cbn. split; [done|]. split.
    + intros H. split; [repeat constructor|]. constructor; [lia|constructor].
    + intros _. by repeat constructor.
  - cbn [compress_trace map head].
    destruct (IH (compress_step max_bits variable_bits s b)) as (Hh & Hs & Hf).
    split; [done|]. split.
    + intros Hle.
      destruct (compress_step_width s b) as [E|(_ & Hlt & E)].
      * rewrite E in Hh, Hs. destruct (Hs Hle) as [Hsort Hall].
        split.
        -- constructor; [done|].
           destruct (map _ _); constructor. injection Hh as ->. lia.
        -- constructor; [lia|done].
      * rewrite E in Hh, Hs.
        destruct (Hs ltac:(lia)) as [Hsort Hall].
        split.
        -- constructor; [done|].
           destruct (map _ _); constructor. injection Hh as ->. lia.
        -- constructor; [lia|].
           eapply Forall_impl; [exact Hall|]. cbn. intros; lia.
    + intros Hv. constructor; [done|].
      destruct (compress_step_width s b) as [E|(Hv' & _)]; [|congruence].
      rewrite <- E. by apply Hf.
Qed.

Lemma decompress_trace_widths (codes : list Z) :
  forall d,
    let ws := map D.current_code_size
                  (decompress_trace max_bits variable_bits d codes) in
    head ws = Some (D.current_code_size d)
    /\ (D.current_code_size d <= max_bits ->
        Sorted Z.le ws
        /\ Forall (fun w => D.current_code_size d <= w <= max_bits) ws)
    /\ (variable_bits = false ->
        Forall (fun w => w = D.current_code_size d) ws).
Proof.
  induction codes as [|c rest IH]; intros d ws; subst ws.
  - cbn. split; [done|]. split.
    + intros H. split; [repeat constructor|]. constructor; [lia|constructor].
    + intros _. by repeat constructor.
  - cbn [decompress_trace map head].
    destruct (decompress_step max_bits variable_bits d c) as [d'|e] eqn:Hstep.
    2:{ cbn. split; [done|]. split.
        - intros H. split; [repeat constructor|].
          constructor; [lia|constructor].
        - intros _. by repeat constructor. }
    destruct (IH d') as (Hh & Hs & Hf).
    split; [done|]. split.
    + intros Hle.
      destruct (decompress_step_width _ _ _ Hstep) as [E|(_ & Hlt & E)].
      * rewrite E in Hh, Hs. destruct (Hs Hle) as [Hsort Hall].
        split.
        -- constructor; [done|].
           destruct (map _ _); constructor. injection Hh as ->. lia.
        -- constructor; [lia|done].
      * rewrite E in Hh, Hs.
        destruct (Hs ltac:(lia)) as [Hsort Hall].
        split.
        -- constructor; [done|].
           destruct (map _ _); constructor. injection Hh as ->. lia.
        -- constructor; [lia|].
           eapply Forall_impl; [exact Hall|]. cbn. intros; lia.
    + intros Hv. constructor; [done|].
      destruct (decompress_step_width _ _ _ Hstep) as [E|(Hv' & _)];
        [|congruence].
      rewrite <- E. by apply Hf.
Qed.
End Widths.

(** ** Code ranges *)

Section Ranges.
Variables (max_bits : Z) (variable_bits : bool).

Abbreviation cloop := (compress_loop max_bits variable_bits).
Abbreviation in_range := (code_in_range max_bits variable_bits).

Lemma assigned_at_app (x r : list byte) (c w : Z) :
  assigned_at max_bits variable_bits x c w ->
  assigned_at max_bits variable_bits (x ++ r) c w.
Proof.
  intros (p & b & r' & -> & H). exists p, b, (r' ++ r).
  split; [|done]. by rewrite <- app_assoc.
Qed.

Lemma code_in_range_app (x r : list byte) (c : Z) :
  in_range x c -> in_range (x ++ r) c.
Proof.
  intros [H0 [H|(w & Hw & Hlt)]]; split; try done; [by left|].
  right. exists w. split; [by apply assigned_at_app | done].
Qed.

Lemma range_inv_loop (p : list byte) :
  9 <= max_bits -> range_inv max_bits variable_bits p.
Proof.
  intros Hmb. induction p as [|b p IH] using rev_ind.
  - destruct (compress_init_fields max_bits variable_bits)
      as (Hcur & Hcd & Hw & Hm).
    split; change (compress_loop max_bits variable_bits [])
             with (compress_init max_bits variable_bits).
    + intros seq c H. apply initial_trie_search in H as [Hc _].
      split; [lia|]. left. split; [lia|].
      assert (2 ^ 9 <= 2 ^ initial_code_size max_bits variable_bits).
      { apply Z.pow_le_mono_r; [lia|]. unfold initial_code_size.
        destruct variable_bits; lia. }
      lia.
    + rewrite Hcd. intros c H. by apply elem_of_nil in H.
    + by rewrite Hm, Hw.
    + by rewrite initial_next_code.
  - destruct IH as [Ht He Hc Hn].
    destruct (search (C.trie (cloop p)) (C.current_bytes (cloop p) ++ [b]))
      as [c'|] eqn:Hnew.
    + pose proof (compress_loop_snoc max_bits variable_bits p b) as Hsn.
      rewrite (compress_step_hit _ _ _ _ _ Hnew) in Hsn.
      split; rewrite Hsn;
        cbn [C.trie C.compressed_data C.max_table_size C.current_code_size];
        try done.
      * intros seq c H. apply code_in_range_app. by apply Ht with seq.
      * intros c H. apply code_in_range_app. by apply He.
    + destruct (compress_step_miss max_bits variable_bits _ b Hnew)
        as (Htrie & Hnext & Hcur & Hcd & Hw & Hm).
      assert (Hreg : forall seq c,
                 search (C.trie (cloop (p ++ [b]))) seq = Some c ->
                 in_range (p ++ [b]) c).
      { intros seq c H. pose proof H as H'.
        rewrite compress_loop_snoc, Htrie in H.
        destruct (Z.ltb_spec (next_code (C.trie (cloop p)))
                             (C.max_table_size (cloop p))) as [Hlt|Hge].
        2:{ apply code_in_range_app. by apply Ht with seq. }
        rewrite search_insert_fresh in H.
        destruct (decide (seq = C.current_bytes (cloop p) ++ [b])) as [->|Hne].
        2:{ apply code_in_range_app. by apply Ht with seq. }
        injection H as <-. split; [lia|]. right.
        exists (C.current_code_size (cloop p)). split; [|by rewrite <- Hc].
        exists p, b, []. done. }
      split.
      * done.
      * rewrite compress_loop_snoc, Hcd. intros c H.
        apply elem_of_app in H as [H|H].
        -- apply code_in_range_app. by apply He.
        -- apply list_elem_of_singleton in H. symmetry in H.
           apply code_in_range_app. by apply Ht in H.
      * rewrite compress_loop_snoc, Hm, Hw.
        by destruct (must_grow _ _ _ _ _).
      * rewrite compress_loop_snoc, Hnext. unfold next_after.
        destruct (_ <? _); lia.
Qed.

Lemma compress_emitted_in_range (x : list byte) (c : Z) :
  9 <= max_bits ->
  Some c ∈ fst (lzw_compress x max_bits variable_bits) -> in_range x c.
Proof.
  intros Hmb H. destruct (range_inv_loop x Hmb) as [Ht He _ _].
  unfold lzw_compress, compress_flush in H. cbn [fst] in H.
  destruct (C.current_bytes (cloop x)) eqn:E; [by apply He|].
  apply elem_of_app in H as [H|H]; [by apply He|].
  apply list_elem_of_singleton in H. symmetry in H. by apply Ht in H.
Qed.

Lemma table_singles_step (d d' : D.state) (c : Z) :
  table_singles d ->
  decompress_step max_bits variable_bits d c = Return d' ->
  table_singles d'.
Proof.
  intros [Hs Hn]. unfold decompress_step.
  destruct (decode_entry d c) as [entry|e]; [|done]. cbn [bind].
  intros [= <-].
  destruct (decompress_update_fields max_bits variable_bits d entry)
    as (Ht & Hnext & _).
  split.
  - intros i Hi. rewrite Ht. destruct (_ <? _); [|by apply Hs].
    rewrite lookup_insert_ne by lia. by apply Hs.
  - rewrite Hnext. unfold next_after. destruct (_ <? _); lia.
Qed.

Lemma table_singles_loop (codes : list Z) :
  forall d d',
    table_singles d ->
    decompress_loop max_bits variable_bits d codes = Return d' ->
    table_singles d'.
Proof.
  induction codes as [|c rest IH]; intros d d' Hd; cbn [decompress_loop].
  - by intros [= <-].
  - destruct (decompress_step max_bits variable_bits d c) as [d1|e] eqn:Hstep;
      [|done].
    cbn [bind]. apply IH. by apply table_singles_step with d c.
Qed.

Lemma table_singles_run (first : Z) (rest : list Z) (d : D.state) :
  decompress_run max_bits variable_bits first rest = Return d ->
  table_singles d.
Proof.
  unfold decompress_run, decompress_start.
  destruct (initial_table !! first) as [e|] eqn:E; [|done]. cbn [bind].
  apply table_singles_loop. split; cbn [D.table D.next_code]; [|lia].
  intros i Hi. apply initial_table_lookup. split; [exact Hi | reflexivity].
Qed.
End Ranges.

(** ** Runs on small inputs *)

Lemma compress_nil (max_bits : Z) (variable_bits : bool) :
  lzw_compress [] max_bits variable_bits
  = ([], initial_code_size max_bits variable_bits).
Proof.
  unfold lzw_compress.
  change (compress_loop max_bits variable_bits [])
    with (compress_init max_bits variable_bits).
  destruct (compress_init_fields max_bits variable_bits) as (Hcur & Hcd & Hw & _).
  unfold compress_flush. by rewrite Hcur, Hcd, Hw.
Qed.

Lemma decompress_nil (max_bits : Z) (variable_bits : bool) :
  lzw_decompress [] max_bits variable_bits = ([], Raise IndexError).
Proof. reflexivity. Qed.

Lemma initial_table_absent (c : Z) :
  ~ 0 <= c < 256 -> initial_table !! c = None.
Proof.
  intros H. destruct (initial_table !! c) as [seq|] eqn:E; [|done].
  apply initial_table_lookup in E. tauto.
Qed.

(** In the loop an unknown code that is not the counter raises the
    [ValueError], whatever follows it. *)
Lemma invalid_code_in_loop (max_bits : Z) (variable_bits : bool)
    (first : Z) (before after : list Z) (d : D.state) (c : Z) :
  decompress_run max_bits variable_bits first before = Return d ->
  D.table d !! c = None -> c <> D.next_code d ->
  lzw_decompress (first :: before ++ c :: after) max_bits variable_bits
  = (before ++ c :: after, Raise ValueError).
Proof.
  intros Hrun Hc Hn. unfold lzw_decompress. cbn [pop0 bind]. f_equal.
  unfold decompress_run in *.
  destruct (decompress_start max_bits variable_bits first) as [d0|e]; [|done].
  cbn [bind] in *. rewrite decompress_loop_app, Hrun. cbn [bind decompress_loop].
  unfold decompress_step, decode_entry. rewrite Hc.
  destruct (Z.eqb_spec c (D.next_code d)); [done|]. reflexivity.
Qed.

Example tobeornot_codes :
  fst (lzw_compress TOBEORNOT 12 false)
  = map Some [84; 79; 66; 69; 79; 82; 78; 79; 84; 256; 258; 260; 265; 259;
              261; 263].
Proof. vm_compute. reflexivity. Qed.

Example repeated_byte_codes :
  fst (lzw_compress (repeat x41 10) 12 true)
  = map Some [65; 256; 257; 258]
  /\ lzw_decompress [65; 256; 257; 258] 12 true
     = ([256; 257; 258], Return (repeat x41 10)).
Proof. vm_compute. split; reflexivity. Qed.

(** * The properties of the specification *)

(** ** Round trip *)

(** C1, as stated, fails on the empty input: [lzw_compress] returns no code
    for it and [lzw_decompress] raises on the empty list. *)
Lemma round_trip_empty_fails : ~ round_trip [] 12 false.
Proof.
  intros (codes & Hc & Hd). rewrite compress_nil in Hc. cbn [fst] in Hc.
  destruct codes; [|discriminate Hc]. rewrite decompress_nil in Hd.
  discriminate Hd.
Qed.

(** C1, amended: for every non-empty byte sequence [x] and every valid
    parameter pair, [lzw_compress] emits integer codes only and
    [lzw_decompress] with the same parameters returns exactly [x] for
    them. *)
Theorem round_trip_lossless (x : list byte) (max_bits : Z)
    (variable_bits : bool) :
  9 <= max_bits -> x <> [] -> round_trip x max_bits variable_bits.
Proof.
  intros _ Hx.
  destruct (sync_run max_bits variable_bits x Hx)
    as (c & cs & d & Hcodes & Hrun & Hsync).
  exists (c :: cs). split; [exact Hcodes|].
  rewrite (decompress_of_run _ _ _ _ _ Hrun). cbn [snd].
  f_equal. apply (sync_output _ _ _ Hsync).
Qed.

Lemma round_trip_lossless_witness :
  9 <= 12 /\ length TOBEORNOT = 24%nat /\ round_trip TOBEORNOT 12 false.
Proof.
  split; [lia|]. split; [reflexivity|].
  apply (round_trip_lossless TOBEORNOT 12 false); [lia | discriminate].
Defined.

(** ** Forward reference *)

(** C2: a code after the first that is absent from the table and equal to
    the counter decodes to the previous sequence followed by its own first
    byte, which is what the step appends to the output; and a run of one
    repeated byte survives compression and decompression. *)
Theorem forward_reference (max_bits : Z) (variable_bits : bool)
    (d : D.state) (c : Z) :
  9 <= max_bits ->
  D.table d !! c = None -> c = D.next_code d ->
  let entry := D.current_bytes d ++ take 1 (D.current_bytes d) in
  decode_entry d c = Return entry
  /\ (exists d', decompress_step max_bits variable_bits d c = Return d'
                 /\ D.current_bytes d' = entry
                 /\ D.decompressed_data d' = D.decompressed_data d ++ [entry])
  /\ (forall b n, (0 < n)%nat ->
                  round_trip (repeat b n) max_bits variable_bits).
Proof.
  intros _ Hc -> entry.
  assert (He : decode_entry d (D.next_code d) = Return entry).
  { unfold decode_entry. by rewrite Hc, Z.eqb_refl. }
  split; [done|]. split.
  - exists (decompress_update max_bits variable_bits d entry).
    unfold decompress_step. rewrite He. cbn [bind].
    destruct (decompress_update_fields max_bits variable_bits d entry)
      as (_ & _ & Hcur & Hout & _).
    done.
  - intros b n Hn.
    assert (Hne : repeat b n <> []) by (destruct n; [lia | done]).
    destruct (sync_run max_bits variable_bits _ Hne)
      as (c0 & cs & d0 & Hcodes & Hrun & Hsync).
    exists (c0 :: cs). split; [exact Hcodes|].
    rewrite (decompress_of_run _ _ _ _ _ Hrun). cbn [snd].
    f_equal. apply (sync_output _ _ _ Hsync).
Qed.

Lemma forward_reference_witness :
  let d := D.mk 12 (2 ^ 12) initial_table 256 [x41] [[x41]] in
  decode_entry d 256 = Return [x41; x41]
  /\ round_trip (repeat x41 500) 12 false.
Proof.
  intros d.
  destruct (forward_reference 12 false d 256) as (He & _ & Hrt).
  - lia.
  - apply initial_table_absent. lia.
  - reflexivity.
  - split; [exact He|]. apply (Hrt x41 500%nat). lia.
Defined.

(** ** Dictionary parity *)

(** C3, as stated, fails: after the two bytes of [b"AB"] the compressor has
    emitted one code and registered [b"AB"]; the decompressor that has
    consumed that one code has registered nothing yet. *)
Lemma parity_at_equal_counts_fails :
  ~ parity_at_equal_counts [x41; x42] 12 false.
Proof.
  intros H.
  specialize (H [x41; x42] [] [65] eq_refl).
  assert (Hcd : C.compressed_data (compress_loop 12 false [x41; x42])
                = map Some [65]) by (vm_compute; reflexivity).
  specialize (H Hcd).
  assert (Hrun : exists d, decompress_run 12 false 65 [] = Return d
                           /\ D.table d = initial_table).
  { unfold decompress_run, decompress_start.
    destruct (initial_table !! 65) as [e|] eqn:E.
    - eexists. split; reflexivity.
    - pose proof (proj2 (initial_table_lookup 65 (bytes1 65))) as E'.
      rewrite E in E'. discriminate E'. split; [lia | reflexivity]. }
  destruct Hrun as (d & Hrun & Ht).
  specialize (H d Hrun [x41; x42] 256). rewrite Ht in H.
  assert (Hs : search (C.trie (compress_loop 12 false [x41; x42])) [x41; x42]
               = Some 256) by (vm_compute; reflexivity).
  apply H in Hs. apply initial_table_lookup in Hs. lia.
Qed.

(** C3, amended: for every input and every valid parameter pair, when the
    compressor has emitted as many codes as the decompressor has consumed,
    the code table holds exactly the pairs of the trie whose code is below
    the decompressor's counter, and the trie is at most one registration
    ahead; once the decompressor has consumed all the codes of a complete
    run on a non-empty input, the flushed one included, trie and table hold
    exactly the same pairs and the counters are equal. *)
Theorem dictionary_parity (x : list byte) (max_bits : Z)
    (variable_bits : bool) :
  9 <= max_bits ->
  let s := compress_loop max_bits variable_bits x in
  (exists cs,
      C.compressed_data s = map Some cs
      /\ match cs with
         | [] => same_pairs (C.trie s) initial_table
         | c :: cs' =>
             exists d,
               decompress_run max_bits variable_bits c cs' = Return d
               /\ pairs_below (C.trie s) (D.table d) (D.next_code d)
               /\ D.next_code d <= next_code (C.trie s) <= D.next_code d + 1
         end)
  /\ (x <> [] ->
      exists c cs d,
        fst (lzw_compress x max_bits variable_bits) = map Some (c :: cs)
        /\ decompress_run max_bits variable_bits c cs = Return d
        /\ same_pairs (C.trie s) (D.table d)
        /\ next_code (C.trie s) = D.next_code d).
Proof.
  intros _ s. subst s. split.
  - destruct (decide (x = [])) as [->|Hx].
    + exists []. 
      change (compress_loop max_bits variable_bits [])
        with (compress_init max_bits variable_bits).
      destruct (compress_init_fields max_bits variable_bits) as (_ & Hcd & _).
      split; [done|]. intros seq c.
      by rewrite initial_trie_search, initial_table_lookup.
    + destruct (lag_loop max_bits variable_bits x Hx)
        as (cs & pre & Hcs & Hdec & Hlag).
      exists cs. split; [done|]. destruct pre as [d|].
      * apply decodes_Some in Hdec as (c & cs' & -> & Hrun).
        exists d. split; [done|].
        destruct Hlag as (_ & Hbound & [Hp Hn _ _ _ _ _ _]).
        destruct (decompress_update_fields max_bits variable_bits d
                    (C.current_bytes (compress_loop max_bits variable_bits x)))
          as (Ht & Hnext & _).
        rewrite Ht in Hp. rewrite Hnext in Hn. clear Ht Hnext.
        split.
        -- intros seq k. rewrite (Hp seq k). split.
           ++ intros Hk. pose proof (Hbound _ _ Hk).
              split; [|done]. destruct (_ <? _); [|done].
              rewrite lookup_insert_ne by lia. done.
           ++ intros [Hk Hlt]. destruct (_ <? _); [|done].
              rewrite lookup_insert_ne in Hk by lia. done.
        -- rewrite Hn. unfold next_after. destruct (_ <? _); lia.
      * apply decodes_None in Hdec as ->. apply Hlag.
  - intros Hx.
    destruct (sync_run max_bits variable_bits x Hx)
      as (c & cs & d & Hc & Hrun & Hsync).
    exists c, cs, d. split; [done|]. split; [done|].
    split; [apply Hsync | apply Hsync].
Qed.

Lemma dictionary_parity_witness :
  exists c cs d,
    fst (lzw_compress TOBEORNOT 12 false) = map Some (c :: cs)
    /\ decompress_run 12 false c cs = Return d
    /\ same_pairs (C.trie (compress_loop 12 false TOBEORNOT)) (D.table d)
    /\ next_code (C.trie (compress_loop 12 false TOBEORNOT)) = D.next_code d.
Proof.
  apply (dictionary_parity TOBEORNOT 12 false); [lia | discriminate].
Defined.

(** ** Errors *)

(** C4: the list [[5000]] with [max_bits = 12], in either width mode, does
    not reach the check of the loop: the lookup of the first code in the
    table raises [KeyError], not the [ValueError] of the invalid code. *)
Theorem first_code_5000_raises_KeyError (variable_bits : bool) :
  lzw_decompress [5000] 12 variable_bits = ([], Raise (KeyError 5000))
  /\ snd (lzw_decompress [5000] 12 variable_bits) <> Raise ValueError.
Proof.
  assert (H : lzw_decompress [5000] 12 variable_bits
              = ([], Raise (KeyError 5000))).
  { unfold lzw_decompress, decompress_run, decompress_start.
    cbn [pop0 bind]. rewrite initial_table_absent by lia. reflexivity. }
  split; [exact H|]. rewrite H. discriminate.
Qed.

(** C5: with valid parameters the empty code list makes [lzw_decompress]
    raise the [IndexError] of [pop(0)], its only outcome, and the list stays
    empty. *)
Theorem decompress_empty_raises (max_bits : Z) (variable_bits : bool) :
  9 <= max_bits ->
  lzw_decompress [] max_bits variable_bits = ([], Raise IndexError).
Proof. intros _. apply decompress_nil. Qed.

Lemma decompress_empty_raises_witness :
  9 <= 12 /\ lzw_decompress [] 12 true = ([], Raise IndexError).
Proof. split; [lia|]. apply (decompress_empty_raises 12 true). lia. Defined.

(** ** Empty input *)

(** C6: with valid parameters [lzw_compress] returns an empty code list for
    the empty byte sequence. *)
Theorem compress_empty_input (max_bits : Z) (variable_bits : bool) :
  9 <= max_bits ->
  fst (lzw_compress [] max_bits variable_bits) = [].
Proof. intros _. by rewrite compress_nil. Qed.

Lemma compress_empty_input_witness :
  9 <= 12 /\ fst (lzw_compress [] 12 false) = [].
Proof. split; [lia|]. apply (compress_empty_input 12 false). lia. Defined.

(** ** Widths *)

Lemma compress_trace_last (max_bits : Z) (variable_bits : bool)
    (input_bytes : list byte) :
  forall s,
    last (compress_trace max_bits variable_bits s input_bytes)
    = Some (fold_left (compress_step max_bits variable_bits) input_bytes s).
Proof.
  induction input_bytes as [|b rest IH]; intros s; [done|].
  cbn [compress_trace fold_left]. rewrite <- IH.
  by destruct rest.
Qed.

(** C7: for every input, every code list and every [max_bits >= 9], the
    widths of a compression run and of a decompression run start at 9, never
    decrease and never exceed [max_bits] when [variable_bits] is true, and
    all equal [max_bits] when it is false. *)
Theorem code_widths (input_bytes : list byte) (codes : list Z) (max_bits : Z) :
  9 <= max_bits ->
  adaptive_widths max_bits (compress_widths input_bytes max_bits true)
  /\ adaptive_widths max_bits (decompress_widths codes max_bits true)
  /\ fixed_widths max_bits (compress_widths input_bytes max_bits false)
  /\ fixed_widths max_bits (decompress_widths codes max_bits false).
Proof.
  intros Hmb.
  assert (Hadaptive : adaptive_widths max_bits [initial_code_size max_bits true]).
  { split; [done|]. split; repeat constructor. done. }
  assert (Hfixed : fixed_widths max_bits [initial_code_size max_bits false]).
  { by repeat constructor. }
  split; [|split; [|split]].
  - unfold compress_widths.
    destruct (compress_trace_widths max_bits true input_bytes
                (compress_init max_bits true)) as (Hh & Hs & _).
    destruct (compress_init_fields max_bits true) as (_ & _ & Hw & _).
    rewrite Hw in Hh, Hs. cbn [initial_code_size] in Hh, Hs.
    destruct (Hs Hmb) as [Hsort Hall].
    split; [done|]. split; [done|].
    eapply Forall_impl; [exact Hall|]. cbn. intros; lia.
  - unfold decompress_widths. destruct codes as [|c rest]; [exact Hadaptive|].
    unfold decompress_start.
    destruct (initial_table !! c) as [e|]; [|exact Hadaptive].
    match goal with
    | |- context [decompress_trace _ _ ?d0 _] =>
        destruct (decompress_trace_widths max_bits true rest d0) as (Hh & Hs & _)
    end.
    cbn [D.current_code_size initial_code_size] in Hh, Hs.
    destruct (Hs Hmb) as [Hsort Hall].
    split; [done|]. split; [done|].
    eapply Forall_impl; [exact Hall|]. cbn. intros; lia.
  - unfold compress_widths.
    destruct (compress_trace_widths max_bits false input_bytes
                (compress_init max_bits false)) as (_ & _ & Hf).
    destruct (compress_init_fields max_bits false) as (_ & _ & Hw & _).
    rewrite Hw in Hf. by apply Hf.
  - unfold decompress_widths. destruct codes as [|c rest]; [exact Hfixed|].
    unfold decompress_start.
    destruct (initial_table !! c) as [e|]; [|exact Hfixed].
    match goal with
    | |- context [decompress_trace _ _ ?d0 _] =>
        destruct (decompress_trace_widths max_bits false rest d0) as (_ & _ & Hf)
    end.
    by apply Hf.
Qed.

Lemma code_widths_witness :
  9 <= 12
  /\ adaptive_widths 12 (compress_widths TOBEORNOT 12 true)
  /\ adaptive_widths 12 (decompress_widths [65; 256; 257] 12 true)
  /\ fixed_widths 12 (compress_widths TOBEORNOT 12 false)
  /\ fixed_widths 12 (decompress_widths [65; 256; 257] 12 false).
Proof. split; [lia|]. apply (code_widths TOBEORNOT [65; 256; 257] 12). lia. Defined.

(** ** Code range *)



(** ** Effect on the argument *)

(** C9: for every non-empty code list [lzw_decompress] leaves the caller's
    list without its first element, one element shorter, whether it returns
    or raises. *)
Theorem decompress_pops_first (codes : list Z) (max_bits : Z)
    (variable_bits : bool) :
  codes <> [] ->
  let codes' := fst (lzw_decompress codes max_bits variable_bits) in
  codes' = tail codes
  /\ S (length codes') = length codes
  /\ codes' <> codes.
Proof.
  intros Hne codes'. subst codes'. destruct codes as [|c rest]; [done|].
  unfold lzw_decompress. cbn [pop0 fst tail length].
  split; [done|]. split; [done|].
  intros E. apply (f_equal length) in E. cbn [length] in E. lia.
Qed.

Lemma decompress_pops_first_witness :
  fst (lzw_decompress [84; 79; 300] 12 false) = [79; 300].
Proof.
  apply (decompress_pops_first [84; 79; 300] 12 false). discriminate.
Defined.

(** ** No missing code *)

(** C10: with valid parameters the lookup of the current match never
    misses where [lzw_compress] emits, in the loop or at the final flush,
    and the returned list holds integers only. *)
Theorem compress_never_emits_None (x : list byte) (max_bits : Z)
    (variable_bits : bool) :
  9 <= max_bits ->
  (forall p b r,
      x = p ++ b :: r ->
      let s := compress_loop max_bits variable_bits p in
      search (C.trie s) (C.current_bytes s ++ [b]) = None ->
      is_Some (search (C.trie s) (C.current_bytes s)))
  /\ (let s := compress_loop max_bits variable_bits x in
      C.current_bytes s <> [] ->
      is_Some (search (C.trie s) (C.current_bytes s)))
  /\ Forall is_Some (fst (lzw_compress x max_bits variable_bits)).
Proof.
  intros _. split; [|split].
  - intros p b r _ s Hnew. subst s.
    destruct (enc_inv_loop max_bits variable_bits p) as [Hs [Hc|[c Hc]] _].
    + rewrite Hc, app_nil_l, Hs in Hnew. discriminate Hnew.
    + rewrite Hc. by eexists.
  - intros s Hne. subst s.
    destruct (enc_current _ (enc_inv_loop max_bits variable_bits x))
      as [Hc|[c Hc]]; [done|].
    rewrite Hc. by eexists.
  - unfold lzw_compress. cbn [fst].
    destruct (enc_inv_loop max_bits variable_bits x) as [_ Hc [cs Hcs]].
    assert (Hall : Forall is_Some
                     (C.compressed_data (compress_loop max_bits variable_bits x))).
    { rewrite Hcs. clear. induction cs as [|c cs IH]; constructor;
        [by eexists | exact IH]. }
    unfold compress_flush.
    destruct (C.current_bytes (compress_loop max_bits variable_bits x)) eqn:E;
      [done|].
    apply Forall_app. split; [done|]. constructor; [|constructor].
    destruct Hc as [Hc|[c Hc]]; [done|]. rewrite Hc. by eexists.
Qed.

Lemma compress_never_emits_None_witness :
  9 <= 12 /\ Forall is_Some (fst (lzw_compress TOBEORNOT 12 false)).
Proof.
  split; [lia|]. apply (compress_never_emits_None TOBEORNOT 12 false). lia.
Defined.

(** * Further properties of the code *)

(** ** The width state *)

Section WidthState.
Variables (max_bits : Z) (variable_bits : bool).
Hypothesis Hvalid : 9 <= max_bits.

Lemma initial_code_size_bounds :
  9 <= initial_code_size max_bits variable_bits <= max_bits.
Proof. unfold initial_code_size. destruct variable_bits; lia. Qed.

Lemma width_inv_init :
  width_inv max_bits variable_bits 256
    (initial_code_size max_bits variable_bits)
    (2 ^ initial_code_size max_bits variable_bits).
Proof.
  pose proof initial_code_size_bounds as Hb.
  assert (2 ^ 9 <= 2 ^ initial_code_size max_bits variable_bits)
    by (apply Z.pow_le_mono_r; lia).
  split; first [reflexivity | lia | by left | left; lia].
Qed.

(** One guarded allocation followed by the growth check keeps the width
    state consistent, and the allocation happens exactly when the counter is
    below [2 ^ max_bits]. *)
Lemma width_inv_next (n w m : Z) :
  width_inv max_bits variable_bits n w m ->
  let n' := next_after n m in
  let g := must_grow max_bits variable_bits n' m w in
  width_inv max_bits variable_bits n'
    (if g then w + 1 else w) (if g then 2 ^ (w + 1) else m)
  /\ (n <? m) = (n <? 2 ^ max_bits).
Proof.
  intros [Hm Hlo Hhi Hwlo Hwhi Htlo Hthi] n' g. subst n' g.
  pose proof initial_code_size_bounds as Hb.
  assert (Hmax : m <= 2 ^ max_bits)
    by (rewrite Hm; apply Z.pow_le_mono_r; lia).
  assert (Hdouble : 2 ^ (w + 1) = 2 * m)
    by (rewrite Hm; apply Z.pow_succ_r; lia).
  unfold next_after.
  destruct (Z.ltb_spec n m) as [Hlt|Hge].
  - split; [|symmetry; apply Z.ltb_lt; lia].
    destruct (must_grow _ _ _ _ _) eqn:Hg.
    + unfold must_grow in Hg.
      apply andb_prop in Hg as [Hg Hw]. apply andb_prop in Hg as [_ Hfull].
      split; try lia.
      right. replace (w + 1 - 1) with w by lia. rewrite <- Hm. lia.
    + split; try lia.
      destruct (decide (n + 1 = m)) as [E|]; [|left; lia]. right.
      unfold must_grow in Hg. destruct variable_bits.
      * cbn [andb] in Hg. apply andb_false_iff in Hg as [Hg|Hg]; lia.
      * unfold initial_code_size in Hwlo. lia.
  - assert (w = max_bits) by (destruct Hthi; [lia | done]).
    assert (Hg : must_grow max_bits variable_bits n m w = false).
    { unfold must_grow. destruct variable_bits; [|done].
      cbn [andb]. apply andb_false_iff. right. lia. }
    rewrite Hg. split; [split; try lia; done|].
    subst w. symmetry. apply Z.ltb_ge. lia.
Qed.

Lemma compress_width_inv (p : list byte) :
  let s := compress_loop max_bits variable_bits p in
  width_inv max_bits variable_bits (next_code (C.trie s))
    (C.current_code_size s) (C.max_table_size s).
Proof.
  cbn zeta. induction p as [|b p IH] using rev_ind.
  - change (compress_loop max_bits variable_bits [])
      with (compress_init max_bits variable_bits).
    destruct (compress_init_fields max_bits variable_bits) as (_ & _ & -> & ->).
    rewrite initial_next_code. apply width_inv_init.
  - rewrite compress_loop_snoc.
    destruct (search (C.trie (compress_loop max_bits variable_bits p))
                (C.current_bytes (compress_loop max_bits variable_bits p) ++ [b]))
      as [c|] eqn:Hnew.
    + by rewrite (compress_step_hit _ _ _ _ _ Hnew).
    + destruct (compress_step_miss max_bits variable_bits _ b Hnew)
        as (_ & -> & _ & _ & -> & ->).
      by apply width_inv_next.
Qed.

Lemma decompress_update_width_inv (d : D.state) (entry : list byte) :
  width_inv max_bits variable_bits (D.next_code d)
    (D.current_code_size d) (D.max_table_size d) ->
  let d' := decompress_update max_bits variable_bits d entry in
  width_inv max_bits variable_bits (D.next_code d')
    (D.current_code_size d') (D.max_table_size d').
Proof.
  intros H d'. subst d'.
  destruct (decompress_update_fields max_bits variable_bits d entry)
    as (_ & -> & _ & _ & -> & ->).
  by apply width_inv_next.
Qed.
End WidthState.

(** ** The trie as a dictionary *)

(** X1: [search] after [insert] finds the inserted code under the inserted
    key and what was there before under every other key, prefixes and
    extensions of the key included. *)
Theorem trie_insert_search (t : Trie) (key key' : list byte) (c : Z) :
  search (insert t key c) key
  = Some c
  /\ (key' <> key -> search (insert t key c) key' = search t key')
  /\ next_code (insert t key c) = next_code t.
Proof.
  split; [|split].
  - rewrite search_insert. by rewrite decide_True.
  - intros Hne. rewrite search_insert. by rewrite decide_False.
  - reflexivity.
Qed.

(** X2: a trie built from [Trie()] by any series of [insert] calls answers
    [search] as the dictionary of those pairs does, the last insertion of a
    key winning; a key that was never inserted is not found. *)
Theorem trie_is_dictionary (pairs : list (list byte * Z)) (key : list byte) :
  search (fold_left (fun t kc => insert t kc.1 kc.2) pairs new_trie) key
  = (list_to_map (reverse pairs) : gmap (list byte) Z) !! key.
Proof.
  induction pairs as [|[k c] pairs IH] using rev_ind.
  - cbn. rewrite search_new_trie. by rewrite lookup_empty.
  - rewrite fold_left_app, reverse_app. cbn [fold_left reverse app fst snd].
    change (reverse [(k, c)]) with [(k, c)]. cbn [app list_to_map foldr].
    rewrite search_insert, IH. cbn [fst snd].
    destruct (decide (key = k)) as [->|Hne].
    + by rewrite lookup_insert_eq.
    + by rewrite lookup_insert_ne.
Qed.

(** ** What the compressor keeps in its trie *)

Section CompressorFacts.
Variables (max_bits : Z) (variable_bits : bool).

Abbreviation cloop := (compress_loop max_bits variable_bits).

Lemma bytes1_in_range_single (c : Z) (seq : list byte) :
  0 <= c < 256 -> seq = bytes1 c -> exists b, seq = [b].
Proof.
  intros Hc ->. destruct (bytes1_range c Hc) as (b & -> & _). by exists b.
Qed.

Lemma codes_inv_loop (p : list byte) : codes_inv (C.trie (cloop p)).
Proof.
  induction p as [|b p IH] using rev_ind.
  - change (cloop []) with (compress_init max_bits variable_bits).
    split; rewrite ?initial_next_code.
    + intros seq c H. by apply initial_trie_search in H as [H _].
    + intros c Hc. exists (bytes1 c). by apply initial_trie_search.
    + intros s1 s2 c H1 H2.
      apply initial_trie_search in H1 as [_ ->].
      by apply initial_trie_search in H2 as [_ ->].
  - rewrite compress_loop_snoc.
    destruct (search (C.trie (cloop p)) (C.current_bytes (cloop p) ++ [b]))
      as [c'|] eqn:Hnew.
    + by rewrite (compress_step_hit _ _ _ _ _ Hnew).
    + destruct (compress_step_miss max_bits variable_bits _ b Hnew)
        as (-> & _).
      destruct (next_code (C.trie (cloop p)) <? C.max_table_size (cloop p));
        [|done].
      destruct IH as [Hr Hd Hi].
      assert (Hpos : 0 < next_code (C.trie (cloop p))).
      { pose proof (Hr _ _ (enc_singles _ (enc_inv_loop max_bits variable_bits p)
                              x00)). lia. }
      split; cbn [insert next_code].
      * intros seq c. rewrite search_insert_fresh.
        destruct (decide _); [intros [= <-]; lia|].
        intros H. apply Hr in H. lia.
      * intros c Hc.
        destruct (decide (c = next_code (C.trie (cloop p)))) as [->|Hne].
        -- exists (C.current_bytes (cloop p) ++ [b]).
           rewrite search_insert_fresh. by rewrite decide_True.
        -- destruct (Hd c) as (seq & Hseq); [lia|]. exists seq.
           rewrite search_insert_fresh, decide_False; [done|congruence].
      * intros s1 s2 c. rewrite !search_insert_fresh.
        destruct (decide (s1 = _)) as [->|N1];
          destruct (decide (s2 = _)) as [->|N2]; try done.
        -- intros [= <-] H. apply Hr in H. lia.
        -- intros H [= <-]. apply Hr in H. lia.
        -- apply Hi.
Qed.

Lemma prefix_closed_loop (p : list byte) : prefix_closed (C.trie (cloop p)).
Proof.
  induction p as [|b p IH] using rev_ind.
  - change (cloop []) with (compress_init max_bits variable_bits). split.
    + destruct (search _ []) as [c|] eqn:E; [|done].
      apply initial_trie_search in E as [Hc E].
      by destruct (bytes1_in_range_single c [] Hc E).
    + intros seq b0 Hne [c Hc].
      apply initial_trie_search in Hc as [Hc E].
      destruct (bytes1_in_range_single c _ Hc E) as (b1 & E1).
      destruct seq as [|? [|? ?]]; done.
  - rewrite compress_loop_snoc.
    destruct (search (C.trie (cloop p)) (C.current_bytes (cloop p) ++ [b]))
      as [c'|] eqn:Hnew.
    + by rewrite (compress_step_hit _ _ _ _ _ Hnew).
    + destruct (compress_step_miss max_bits variable_bits _ b Hnew)
        as (-> & _).
      destruct (next_code (C.trie (cloop p)) <? C.max_table_size (cloop p));
        [|done].
      destruct IH as [He Hp].
      destruct (enc_inv_loop max_bits variable_bits p) as [Hs Hcur _].
      assert (Hreg : is_Some (search (C.trie (cloop p))
                                     (C.current_bytes (cloop p)))).
      { destruct Hcur as [E|[c Hc]]; [|by rewrite Hc].
        rewrite E, app_nil_l, Hs in Hnew. discriminate Hnew. }
      split.
      * rewrite search_insert_fresh, decide_False; [done|].
        by destruct (C.current_bytes (cloop p)).
      * intros seq b0 Hne. rewrite !search_insert_fresh.
        destruct (decide (seq ++ [b0] = _)) as [E|N].
        -- apply app_inj_tail in E as [-> _]. intros _.
           destruct (decide _); [by eexists | done].
        -- intros H. apply Hp in H; [|done].
           destruct (decide _); [by eexists | done].
Qed.

Lemma prefix_closed_app (t : Trie) (seq k : list byte) :
  prefix_closed t -> seq <> [] ->
  is_Some (search t (seq ++ k)) -> is_Some (search t seq).
Proof.
  intros [_ Hp] Hne. induction k as [|b k IH] using rev_ind.
  - by rewrite app_nil_r.
  - rewrite app_assoc. intros H. apply IH. apply Hp with b; [|done].
    by destruct seq.
Qed.

Lemma compress_length_inv (p : list byte) :
  (length (C.compressed_data (cloop p)) + length (C.current_bytes (cloop p))
   <= length p)%nat.
Proof.
  induction p as [|b p IH] using rev_ind.
  - change (cloop []) with (compress_init max_bits variable_bits).
    destruct (compress_init_fields max_bits variable_bits) as (-> & -> & _).
    done.
  - rewrite compress_loop_snoc, length_app. cbn [length].
    destruct (search (C.trie (cloop p)) (C.current_bytes (cloop p) ++ [b]))
      as [c'|] eqn:Hnew.
    + rewrite (compress_step_hit _ _ _ _ _ Hnew).
      cbn [C.compressed_data C.current_bytes]. rewrite length_app.
      cbn [length]. lia.
    + destruct (compress_step_miss max_bits variable_bits _ b Hnew)
        as (_ & _ & -> & -> & _).
      rewrite length_app. cbn [length].
      assert (C.current_bytes (cloop p) <> []).
      { intros E. rewrite E, app_nil_l in Hnew.
        by rewrite (enc_singles _ (enc_inv_loop max_bits variable_bits p))
          in Hnew. }
      destruct (C.current_bytes (cloop p)); [done|]. cbn [length] in IH. lia.
Qed.

Lemma compressed_data_grows (p r : list byte) :
  C.compressed_data (cloop p) `prefix_of` C.compressed_data (cloop (p ++ r)).
Proof.
  induction r as [|b r IH] using rev_ind.
  - by rewrite app_nil_r.
  - rewrite app_assoc, compress_loop_snoc.
    etrans; [exact IH|].
    destruct (search (C.trie (cloop (p ++ r)))
                (C.current_bytes (cloop (p ++ r)) ++ [b])) as [c'|] eqn:Hnew.
    + by rewrite (compress_step_hit _ _ _ _ _ Hnew).
    + destruct (compress_step_miss max_bits variable_bits _ b Hnew)
        as (_ & _ & _ & -> & _).
      by apply prefix_app_r.
Qed.
End CompressorFacts.

(** X3: after any input the codes of the compressor's trie are exactly the
    integers from 0 up to the counter, and no two sequences share a code. *)
Theorem compress_codes_unique (x : list byte) (max_bits : Z)
    (variable_bits : bool) :
  let t := C.trie (compress_loop max_bits variable_bits x) in
  (forall seq c, search t seq = Some c -> 0 <= c < next_code t)
  /\ (forall c, 0 <= c < next_code t -> exists seq, search t seq = Some c)
  /\ (forall s1 s2 c, search t s1 = Some c -> search t s2 = Some c -> s1 = s2).
Proof.
  destruct (codes_inv_loop max_bits variable_bits x) as [Hr Hd Hi].
  split; [exact Hr|]. split; [exact Hd | exact Hi].
Qed.

(** X4: greedy longest match.  When the step for byte [b] finds the
    candidate [current_bytes + b] absent, the code it appends is that of
    [current_bytes], which is registered, and no sequence that extends
    [current_bytes + b] is registered either: [current_bytes] is the longest
    registered prefix of what remains of the input. *)
Theorem greedy_longest_match (p : list byte) (b : byte) (max_bits : Z)
    (variable_bits : bool) :
  let s := compress_loop max_bits variable_bits p in
  search (C.trie s) (C.current_bytes s ++ [b]) = None ->
  (exists c,
      search (C.trie s) (C.current_bytes s) = Some c
      /\ C.compressed_data (compress_loop max_bits variable_bits (p ++ [b]))
         = C.compressed_data s ++ [Some c])
  /\ (forall k, search (C.trie s) (C.current_bytes s ++ b :: k) = None)
  /\ search (C.trie s) [] = None.
Proof.
  intros s Hnew. subst s.
  destruct (enc_inv_loop max_bits variable_bits p) as [Hs Hcur _].
  pose proof (prefix_closed_loop max_bits variable_bits p) as Hpc.
  assert (Hne : C.current_bytes (compress_loop max_bits variable_bits p) <> []).
  { intros E. rewrite E, app_nil_l, Hs in Hnew. discriminate Hnew. }
  split; [|split].
  - destruct Hcur as [E|[c Hc]]; [done|]. exists c. split; [done|].
    rewrite compress_loop_snoc.
    destruct (compress_step_miss max_bits variable_bits _ b Hnew)
      as (_ & _ & _ & -> & _).
    by rewrite Hc.
  - intros k.
    destruct (search _ (_ ++ b :: k)) as [c|] eqn:E; [|done].
    assert (H : is_Some (search
                  (C.trie (compress_loop max_bits variable_bits p))
                  (C.current_bytes (compress_loop max_bits variable_bits p)
                   ++ [b]))).
    { apply prefix_closed_app with k; [done | |].
      - by destruct (C.current_bytes _).
      - rewrite <- app_assoc. cbn [app]. by rewrite E. }
    rewrite Hnew in H. by destruct H.
  - apply Hpc.
Qed.

Lemma greedy_longest_match_witness :
  search (C.trie (compress_loop 12 false [x41]))
         (C.current_bytes (compress_loop 12 false [x41]) ++ [x42]) = None
  /\ search (C.trie (compress_loop 12 false [x41]))
            (C.current_bytes (compress_loop 12 false [x41]) ++ [x42; x43])
     = None.
Proof.
  assert (H : search (C.trie (compress_loop 12 false [x41]))
                (C.current_bytes (compress_loop 12 false [x41]) ++ [x42])
              = None) by (vm_compute; reflexivity).
  split; [exact H|].
  apply (greedy_longest_match [x41] x42 12 false H).
Defined.

(** X5: the code list is never longer than the input, and it is empty for
    the empty input only. *)
Theorem compress_no_longer_than_input (x : list byte) (max_bits : Z)
    (variable_bits : bool) :
  (length (fst (lzw_compress x max_bits variable_bits)) <= length x)%nat
  /\ (fst (lzw_compress x max_bits variable_bits) = [] <-> x = []).
Proof.
  pose proof (compress_length_inv max_bits variable_bits x) as Hlen.
  destruct (decide (x = [])) as [->|Hx].
  - rewrite compress_nil. cbn [fst length]. done.
  - unfold lzw_compress, compress_flush. cbn [fst].
    pose proof (current_nonempty max_bits variable_bits x Hx) as Hne.
    destruct (C.current_bytes (compress_loop max_bits variable_bits x)) eqn:E;
      [done|].
    rewrite length_app. cbn [length] in *. split; [lia|].
    split; [|done]. intros H. by apply app_eq_nil in H as [_ H].
Qed.

(** X6: emitted codes are final.  All the codes of the output for [p] but
    the last one (the flush) open the output for every input that extends
    [p]. *)
Theorem compress_streaming (p r : list byte) (max_bits : Z)
    (variable_bits : bool) :
  removelast (fst (lzw_compress p max_bits variable_bits))
    `prefix_of` fst (lzw_compress (p ++ r) max_bits variable_bits).
Proof.
  assert (Hflush : forall y,
             C.compressed_data (compress_loop max_bits variable_bits y)
               `prefix_of` fst (lzw_compress y max_bits variable_bits)).
  { intros y. unfold lzw_compress, compress_flush. cbn [fst].
    destruct (C.current_bytes _); [done | by apply prefix_app_r]. }
  assert (Hlast : removelast (fst (lzw_compress p max_bits variable_bits))
                  `prefix_of`
                  C.compressed_data (compress_loop max_bits variable_bits p)).
  { unfold lzw_compress, compress_flush. cbn [fst].
    destruct (C.current_bytes _).
    - exists (match C.compressed_data
                      (compress_loop max_bits variable_bits p) with
              | [] => []
              | _ => [List.last (C.compressed_data
                        (compress_loop max_bits variable_bits p)) None]
              end).
      destruct (C.compressed_data _) as [|o l] eqn:E; [done|].
      rewrite <- E. apply app_removelast_last. by rewrite E.
    - by rewrite removelast_last. }
  etrans; [exact Hlast|]. etrans; [|apply Hflush].
  apply compressed_data_grows.
Qed.

(** ** Dictionary size and reported width *)

Section Counting.
Variables (max_bits : Z) (variable_bits : bool).
Hypothesis Hvalid : 9 <= max_bits.

Lemma next_after_count (n w m e : Z) :
  width_inv max_bits variable_bits n w m ->
  n = Z.min (256 + e) (2 ^ max_bits) ->
  next_after n m = Z.min (256 + (e + 1)) (2 ^ max_bits).
Proof.
  intros Hinv Hn.
  destruct (width_inv_next max_bits variable_bits Hvalid n w m Hinv)
    as [_ Hdec].
  unfold next_after. rewrite Hdec.
  destruct (Z.ltb_spec n (2 ^ max_bits)); lia.
Qed.

Lemma compress_next_count (p : list byte) :
  let s := compress_loop max_bits variable_bits p in
  next_code (C.trie s)
  = Z.min (256 + Z.of_nat (length (C.compressed_data s))) (2 ^ max_bits).
Proof.
  cbn zeta. induction p as [|b p IH] using rev_ind.
  - change (compress_loop max_bits variable_bits [])
      with (compress_init max_bits variable_bits).
    destruct (compress_init_fields max_bits variable_bits) as (_ & -> & _).
    rewrite initial_next_code. cbn [length].
    assert (2 ^ 9 <= 2 ^ max_bits) by (apply Z.pow_le_mono_r; lia). lia.
  - rewrite compress_loop_snoc.
    destruct (search (C.trie (compress_loop max_bits variable_bits p))
                (C.current_bytes (compress_loop max_bits variable_bits p) ++ [b]))
      as [c|] eqn:Hnew.
    + by rewrite (compress_step_hit _ _ _ _ _ Hnew).
    + destruct (compress_step_miss max_bits variable_bits _ b Hnew)
        as (_ & -> & _ & -> & _).
      rewrite length_app, Nat2Z.inj_add. cbn [length].
      apply next_after_count
        with (C.current_code_size (compress_loop max_bits variable_bits p));
        [|exact IH].
      by apply (compress_width_inv max_bits variable_bits Hvalid p).
Qed.

(** The width is determined by the counter. *)
Lemma width_of_count (n w m N : Z) :
  width_inv max_bits true n w m ->
  256 <= N -> n = Z.min N (2 ^ max_bits) ->
  w = Z.min max_bits (Z.max 9 (Z.log2 N + 1)).
Proof.
  intros [Hm Hlo Hhi Hwlo Hwhi Htlo Hthi] HN Hn.
  cbn [initial_code_size] in Hwlo, Htlo. subst m.
  destruct (Z.le_gt_cases (2 ^ max_bits) N) as [Hfull|Hroom].
  - assert (max_bits <= Z.log2 N) by (apply Z.log2_le_pow2; lia).
    assert (2 ^ max_bits <= 2 ^ w) by lia.
    assert (max_bits <= w) by (apply (Z.pow_le_mono_r_iff 2); lia).
    lia.
  - assert (Z.log2 N < max_bits) by (apply Z.log2_lt_pow2; lia).
    assert (Hn' : n = N) by lia. subst n.
    assert (Hlt : N < 2 ^ w) by (destruct Hthi as [Hlt | ->]; lia).
    assert (Z.log2 N < w) by (apply Z.log2_lt_pow2; lia).
    destruct Htlo as [->|Hge]; [lia|].
    assert (w - 1 <= Z.log2 N) by (apply Z.log2_le_pow2; lia).
    lia.
Qed.
End Counting.

Lemma compress_output_nonempty (x : list byte) (max_bits : Z)
    (variable_bits : bool) :
  x <> [] -> fst (lzw_compress x max_bits variable_bits) <> [].
Proof.
  intros Hx. unfold lzw_compress, compress_flush. cbn [fst].
  pose proof (current_nonempty max_bits variable_bits x Hx) as Hne.
  destruct (C.current_bytes _); [done|].
  intros H. by apply app_eq_nil in H as [_ H].
Qed.

Lemma compress_count_of_output (x : list byte) (max_bits : Z)
    (variable_bits : bool) :
  9 <= max_bits ->
  next_code (C.trie (compress_loop max_bits variable_bits x))
  = Z.min (Z.max 256
             (255 + Z.of_nat
                      (length (fst (lzw_compress x max_bits variable_bits)))))
          (2 ^ max_bits).
Proof.
  intros Hvalid.
  pose proof (compress_next_count max_bits variable_bits Hvalid x) as Hn.
  cbn zeta in Hn. rewrite Hn.
  destruct (decide (x = [])) as [->|Hx].
  - rewrite compress_nil. cbn [fst length].
    change (compress_loop max_bits variable_bits [])
      with (compress_init max_bits variable_bits).
    destruct (compress_init_fields max_bits variable_bits) as (_ & -> & _).
    cbn [length]. lia.
  - unfold lzw_compress. cbn [fst].
    destruct (enc_current _ (enc_inv_loop max_bits variable_bits x))
      as [E|[c Hc]];
      [by apply (current_nonempty max_bits variable_bits x Hx) in E|].
    rewrite (compress_flush_pending _ c
               (current_nonempty max_bits variable_bits x Hx) Hc).
    rewrite length_app, Nat2Z.inj_add. cbn [length]. lia.
Qed.

(** X7: with valid parameters the number of entries of the compressor's
    dictionary is determined by the number [k] of codes it returns: the
    counter is [min (max 256 (255 + k)) (2 ^ max_bits)], so the dictionary
    never holds more than [2 ^ max_bits] entries and stops growing there. *)
Theorem dictionary_size (x : list byte) (max_bits : Z) (variable_bits : bool) :
  9 <= max_bits ->
  let k := Z.of_nat (length (fst (lzw_compress x max_bits variable_bits))) in
  next_code (C.trie (compress_loop max_bits variable_bits x))
  = Z.min (Z.max 256 (255 + k)) (2 ^ max_bits)
  /\ next_code (C.trie (compress_loop max_bits variable_bits x))
     <= 2 ^ max_bits.
Proof.
  intros Hvalid k. subst k.
  rewrite (compress_count_of_output x max_bits variable_bits Hvalid).
  split; [reflexivity | lia].
Qed.

Lemma dictionary_size_witness :
  next_code (C.trie (compress_loop 12 false TOBEORNOT)) <= 2 ^ 12.
Proof. apply (dictionary_size TOBEORNOT 12 false). lia. Defined.

(** X8: the width [lzw_compress] reports.  In the fixed mode it is
    [max_bits]; in the adaptive mode it is the number of bits of
    [255 + k], where [k] is the number of codes returned, kept between 9 and
    [max_bits]. *)
Theorem reported_width (x : list byte) (max_bits : Z) :
  9 <= max_bits ->
  snd (lzw_compress x max_bits false) = max_bits
  /\ snd (lzw_compress x max_bits true)
     = Z.min max_bits
         (Z.max 9 (Z.log2 (255 + Z.of_nat
                              (length (fst (lzw_compress x max_bits true))))
                   + 1)).
Proof.
  intros Hvalid. split.
  - unfold lzw_compress. cbn [snd].
    destruct (compress_width_inv max_bits false Hvalid x)
      as [_ _ _ Hlo Hhi _ _].
    cbn [initial_code_size] in Hlo. lia.
  - destruct (decide (x = [])) as [->|Hx].
    + rewrite compress_nil. cbn [fst snd length initial_code_size].
      replace (Z.log2 (255 + Z.of_nat 0) + 1) with 8 by reflexivity. lia.
    + pose proof (compress_count_of_output x max_bits true Hvalid) as Hn.
      pose proof (compress_output_nonempty x max_bits true Hx) as Hk.
      unfold lzw_compress at 1. cbn [snd].
      apply (width_of_count max_bits Hvalid
               (next_code (C.trie (compress_loop max_bits true x))) _
               (C.max_table_size (compress_loop max_bits true x))).
      * by apply (compress_width_inv max_bits true Hvalid x).
      * destruct (fst (lzw_compress x max_bits true)); [done|].
        cbn [length]. lia.
      * rewrite Hn. destruct (fst (lzw_compress x max_bits true)); [done|].
        cbn [length]. lia.
Qed.

Lemma reported_width_witness :
  snd (lzw_compress TOBEORNOT 12 false) = 12
  /\ snd (lzw_compress TOBEORNOT 12 true)
     = Z.min 12
         (Z.max 9 (Z.log2 (255 + Z.of_nat
                              (length (fst (lzw_compress TOBEORNOT 12 true))))
                   + 1)).
Proof. apply (reported_width TOBEORNOT 12). lia. Defined.

(** ** The width mode does not change the codes *)

Lemma compress_same_dictionary (max_bits : Z) (p : list byte) :
  9 <= max_bits ->
  same_dictionary (compress_loop max_bits true p)
                  (compress_loop max_bits false p).
Proof.
  intros Hvalid. induction p as [|b p IH] using rev_ind.
  - change (compress_loop max_bits true []) with (compress_init max_bits true).
    change (compress_loop max_bits false []) with (compress_init max_bits false).
    unfold same_dictionary.
    destruct (compress_init_fields max_bits true) as (-> & -> & _).
    destruct (compress_init_fields max_bits false) as (-> & -> & _).
    split; [apply compress_init_trie | done].
  - rewrite !compress_loop_snoc.
    pose proof (compress_width_inv max_bits true Hvalid p) as Hw1.
    pose proof (compress_width_inv max_bits false Hvalid p) as Hw2.
    cbn zeta in Hw1, Hw2.
    destruct IH as (Ht & Hc & Hd). unfold same_dictionary.
    destruct (search (C.trie (compress_loop max_bits true p))
                (C.current_bytes (compress_loop max_bits true p) ++ [b]))
      as [c|] eqn:Hnew.
    + pose proof Hnew as Hnew'. rewrite Ht, Hc in Hnew'.
      rewrite (compress_step_hit _ _ _ _ _ Hnew),
        (compress_step_hit _ _ _ _ _ Hnew').
      split; [done|]. split; cbn; congruence.
    + pose proof Hnew as Hnew'. rewrite Ht, Hc in Hnew'.
      destruct (compress_step_miss max_bits true _ b Hnew)
        as (Ht1 & _ & Hc1 & Hd1 & _).
      destruct (compress_step_miss max_bits false _ b Hnew')
        as (Ht2 & _ & Hc2 & Hd2 & _).
      destruct (width_inv_next max_bits true Hvalid _ _ _ Hw1) as [_ E1].
      destruct (width_inv_next max_bits false Hvalid _ _ _ Hw2) as [_ E2].
      split; [|split].
      * rewrite Ht1, Ht2, E1, E2, <- Ht, <- Hc. reflexivity.
      * by rewrite Hc1, Hc2.
      * by rewrite Hd1, Hd2, Hd, Ht, Hc.
Qed.

Lemma decompress_loop_same_decoding (max_bits : Z) (codes : list Z) :
  9 <= max_bits ->
  forall d1 d2,
    same_decoding d1 d2 ->
    width_inv max_bits true (D.next_code d1) (D.current_code_size d1)
      (D.max_table_size d1) ->
    width_inv max_bits false (D.next_code d2) (D.current_code_size d2)
      (D.max_table_size d2) ->
    match decompress_loop max_bits true d1 codes,
          decompress_loop max_bits false d2 codes with
    | Return d1', Return d2' => same_decoding d1' d2'
    | Raise e1, Raise e2 => e1 = e2
    | _, _ => False
    end.
Proof.
  intros Hvalid. induction codes as [|c codes IH]; intros d1 d2 Hs Hw1 Hw2.
  - exact Hs.
  - cbn [decompress_loop]. unfold decompress_step.
    destruct Hs as (Ht & Hn & Hc & Ho).
    assert (He : decode_entry d1 c = decode_entry d2 c)
      by (unfold decode_entry; by rewrite Ht, Hn, Hc).
    rewrite <- He. destruct (decode_entry d1 c) as [entry|e]; [|done].
    cbn [bind]. apply IH.
    + destruct (decompress_update_fields max_bits true d1 entry)
        as (Ht1 & Hn1 & Hc1 & Ho1 & _).
      destruct (decompress_update_fields max_bits false d2 entry)
        as (Ht2 & Hn2 & Hc2 & Ho2 & _).
      destruct (width_inv_next max_bits true Hvalid _ _ _ Hw1) as [_ E1].
      destruct (width_inv_next max_bits false Hvalid _ _ _ Hw2) as [_ E2].
      split; [|split; [|split]].
      * rewrite Ht1, Ht2, E1, E2, <- Ht, <- Hn, <- Hc. reflexivity.
      * rewrite Hn1, Hn2. unfold next_after.
        rewrite E1, E2, <- Hn. reflexivity.
      * by rewrite Hc1, Hc2.
      * by rewrite Ho1, Ho2, Ho.
    + by apply decompress_update_width_inv.
    + by apply decompress_update_width_inv.
Qed.

(** X9: with valid parameters [variable_bits] changes nothing but the
    reported width: [lzw_compress] returns the same codes in both modes, and
    [lzw_decompress] has the same outcome in both modes on every code list. *)
Theorem width_mode_is_irrelevant (x : list byte) (codes : list Z)
    (max_bits : Z) :
  9 <= max_bits ->
  fst (lzw_compress x max_bits true) = fst (lzw_compress x max_bits false)
  /\ lzw_decompress codes max_bits true = lzw_decompress codes max_bits false.
Proof.
  intros Hvalid. split.
  - destruct (compress_same_dictionary max_bits x Hvalid) as (Ht & Hc & Hd).
    unfold lzw_compress, compress_flush. cbn [fst].
    by rewrite Ht, Hc, Hd.
  - destruct codes as [|c rest]; [done|].
    unfold lzw_decompress, decompress_run, decompress_start.
    cbn [pop0 bind]. f_equal.
    destruct (initial_table !! c) as [e|]; [|done]. cbn [bind].
    match goal with
    | |- context [decompress_loop max_bits true ?d1 rest] =>
        match goal with
        | |- context [decompress_loop max_bits false ?d2 rest] =>
            pose proof (decompress_loop_same_decoding max_bits rest Hvalid
                          d1 d2) as H
        end
    end.
    cbn [D.next_code D.current_code_size D.max_table_size] in H.
    specialize (H ltac:(by repeat split)
                  (width_inv_init max_bits true Hvalid)
                  (width_inv_init max_bits false Hvalid)).
    destruct (decompress_loop max_bits true _ rest) as [d1'|e1];
      destruct (decompress_loop max_bits false _ rest) as [d2'|e2];
      try done; cbn [bind].
    + destruct H as (_ & _ & _ & ->). done.
    + by subst.
Qed.

Lemma width_mode_is_irrelevant_witness :
  fst (lzw_compress TOBEORNOT 12 true) = fst (lzw_compress TOBEORNOT 12 false)
  /\ lzw_decompress [65; 256; 300] 12 true
     = lzw_decompress [65; 256; 300] 12 false.
Proof. apply (width_mode_is_irrelevant TOBEORNOT [65; 256; 300] 12). lia. Defined.

(** ** What the decompressor keeps in its table *)

Section DecompressorFacts.
Variables (max_bits : Z) (variable_bits : bool).

Abbreviation dupdate := (decompress_update max_bits variable_bits).
Abbreviation dstep := (decompress_step max_bits variable_bits).
Abbreviation dloop := (decompress_loop max_bits variable_bits).
Abbreviation dstart := (decompress_start max_bits variable_bits).
Abbreviation drun := (decompress_run max_bits variable_bits).

Lemma decompress_start_inv (c : Z) :
  (0 <= c < 256 /\
   dstart c
   = Return (D.mk (initial_code_size max_bits variable_bits)
                  (2 ^ initial_code_size max_bits variable_bits)
                  initial_table 256 (bytes1 c) [bytes1 c]))
  \/ (~ 0 <= c < 256 /\ dstart c = Raise (KeyError c)).
Proof.
  unfold decompress_start.
  destruct (initial_table !! c) as [e|] eqn:E.
  - left. apply initial_table_lookup in E as [Hc ->]. done.
  - right. split; [|done]. intros Hc.
    pose proof (proj2 (initial_table_lookup c (bytes1 c)) (conj Hc eq_refl)).
    congruence.
Qed.

Lemma table_dense_start (c : Z) (d : D.state) :
  dstart c = Return d -> table_dense d /\ chunks_nonempty d.
Proof.
  destruct (decompress_start_inv c) as [[Hc ->]|[_ ->]]; [|done].
  intros [= <-]. destruct (bytes1_range c Hc) as (b & Eb & _).
  split.
  - intros k. cbn [D.table D.next_code]. split.
    + intros [seq Hs]. by apply initial_table_lookup in Hs as [? _].
    + intros Hk. exists (bytes1 k). by apply initial_table_lookup.
  - split; cbn [D.table D.current_bytes D.decompressed_data].
    + intros k seq Hs. apply initial_table_lookup in Hs as [Hk ->].
      by destruct (bytes1_range k Hk) as (b' & -> & _).
    + by rewrite Eb.
    + constructor; [by rewrite Eb | constructor].
Qed.

Lemma table_dense_update (d : D.state) (entry : list byte) :
  table_dense d -> 0 <= D.next_code d ->
  table_dense (dupdate d entry) /\ 0 <= D.next_code (dupdate d entry).
Proof.
  intros Hd Hpos.
  destruct (decompress_update_fields max_bits variable_bits d entry)
    as (Ht & Hn & _).
  split.
  - intros c. rewrite Ht, Hn. unfold next_after.
    destruct (D.next_code d <? D.max_table_size d); [|apply Hd].
    destruct (decide (c = D.next_code d)) as [->|Hne].
    + rewrite lookup_insert_eq. split; [lia | by eexists].
    + rewrite lookup_insert_ne by done. destruct (Hd c) as [H1 H2].
      split; intros H; [apply H1 in H; lia | apply H2; lia].
  - rewrite Hn. unfold next_after. destruct (_ <? _); lia.
Qed.

(** In the loop a code is accepted exactly when it is between 0 and the
    counter. *)
Lemma decode_entry_accepts (d : D.state) (c : Z) :
  table_dense d -> 0 <= D.next_code d ->
  (0 <= c <= D.next_code d /\ exists entry, decode_entry d c = Return entry)
  \/ (~ 0 <= c <= D.next_code d /\ decode_entry d c = Raise ValueError).
Proof.
  intros Hd Hpos. unfold decode_entry.
  destruct (D.table d !! c) as [e|] eqn:E.
  - left. assert (is_Some (D.table d !! c)) as H by (by rewrite E).
    apply Hd in H. split; [lia | by eexists].
  - destruct (Z.eqb_spec c (D.next_code d)) as [->|Hne].
    + left. split; [lia | by eexists].
    + right. split; [|done]. intros H.
      assert (is_Some (D.table d !! c)) as [? ?] by (apply Hd; lia).
      congruence.
Qed.

Lemma decode_entry_nonempty (d : D.state) (c : Z) (entry : list byte) :
  chunks_nonempty d -> decode_entry d c = Return entry -> entry <> [].
Proof.
  intros [Ht Hc _]. unfold decode_entry.
  destruct (D.table d !! c) as [e|] eqn:E.
  - intros [= <-]. by apply Ht with c.
  - destruct (c =? D.next_code d); [|done]. intros [= <-].
    by destruct (D.current_bytes d).
Qed.

Lemma chunks_nonempty_update (d : D.state) (entry : list byte) :
  chunks_nonempty d -> entry <> [] -> chunks_nonempty (dupdate d entry).
Proof.
  intros [Ht Hc Ho] He.
  destruct (decompress_update_fields max_bits variable_bits d entry)
    as (Htab & _ & Hcur & Hout & _).
  split.
  - intros c seq. rewrite Htab.
    destruct (D.next_code d <? D.max_table_size d); [|apply Ht].
    destruct (decide (D.next_code d = c)) as [<-|Hne].
    + rewrite lookup_insert_eq. intros [= <-]. by destruct (D.current_bytes d).
    + rewrite lookup_insert_ne by done. apply Ht.
  - by rewrite Hcur.
  - rewrite Hout. apply Forall_app. split; [done|]. by constructor.
Qed.

(** The state the loop is in after the codes [before], if it gets there:
    what it keeps, and what it has added to the output. *)
Lemma decompress_loop_inv (before : list Z) :
  forall d d',
    dloop d before = Return d' ->
    table_dense d -> 0 <= D.next_code d -> chunks_nonempty d ->
    table_dense d' /\ 0 <= D.next_code d' /\ chunks_nonempty d'
    /\ exists chunks,
         D.decompressed_data d' = D.decompressed_data d ++ chunks
         /\ length chunks = length before.
Proof.
  induction before as [|c before IH]; intros d d' Hloop Hd Hpos Hc.
  - injection Hloop as <-. repeat (split; [done|]). exists [].
    by rewrite app_nil_r.
  - cbn [decompress_loop] in Hloop. unfold decompress_step in Hloop.
    destruct (decode_entry d c) as [entry|e] eqn:He; [|done].
    cbn [bind] in Hloop.
    pose proof (decode_entry_nonempty d c entry Hc He) as Hne.
    destruct (table_dense_update d entry Hd Hpos) as [Hd1 Hpos1].
    destruct (IH _ _ Hloop Hd1 Hpos1 (chunks_nonempty_update d entry Hc Hne))
      as (Hd' & Hpos' & Hc' & chunks & Hout & Hlen).
    repeat (split; [done|]). exists (entry :: chunks).
    destruct (decompress_update_fields max_bits variable_bits d entry)
      as (_ & _ & _ & Hout1 & _).
    rewrite Hout, Hout1, <- app_assoc. cbn [length]. by rewrite Hlen.
Qed.

(** The loop raises nothing but the [ValueError], and raises it at the
    first code that is not between 0 and the counter. *)
Lemma decompress_loop_raises (codes : list Z) :
  forall d e,
    dloop d codes = Raise e ->
    table_dense d -> 0 <= D.next_code d ->
    e = ValueError
    /\ exists before c after d',
         codes = before ++ c :: after
         /\ dloop d before = Return d'
         /\ ~ 0 <= c <= D.next_code d'.
Proof.
  induction codes as [|c codes IH]; intros d e Hloop Hd Hpos; [done|].
  cbn [decompress_loop] in Hloop. unfold decompress_step in Hloop.
  destruct (decode_entry_accepts d c Hd Hpos) as [[Hc [entry He]]|[Hc He]];
    rewrite He in Hloop; cbn [bind] in Hloop.
  - destruct (table_dense_update d entry Hd Hpos) as [Hd1 Hpos1].
    destruct (IH _ _ Hloop Hd1 Hpos1)
      as (-> & before & c' & after & d' & -> & Hb & Hc').
    split; [done|]. exists (c :: before), c', after, d'.
    split; [done|]. split; [|done].
    cbn [decompress_loop]. unfold decompress_step. by rewrite He.
  - injection Hloop as <-. split; [done|]. by exists [], c, codes, d.
Qed.

Lemma concat_length_ge (chunks : list (list byte)) :
  Forall (fun chunk => chunk <> []) chunks ->
  (length chunks <= length (concat chunks))%nat.
Proof.
  induction 1 as [|chunk chunks Hne _ IH]; [done|].
  cbn [concat length]. rewrite length_app.
  destruct chunk; [done|]. cbn [length]. lia.
Qed.
End DecompressorFacts.

(** ** Which code lists the decompressor accepts *)

Section Acceptance.
Variables (max_bits : Z) (variable_bits : bool).
Hypothesis Hvalid : 9 <= max_bits.

Lemma decompress_loop_accepts (rest : list Z) :
  forall d k,
    table_dense d ->
    width_inv max_bits variable_bits (D.next_code d) (D.current_code_size d)
      (D.max_table_size d) ->
    D.next_code d = Z.min (256 + k) (2 ^ max_bits) ->
    (exists d', decompress_loop max_bits variable_bits d rest = Return d')
    <-> (forall (i : nat) c, rest !! i = Some c ->
           0 <= c <= Z.min (256 + k + Z.of_nat i) (2 ^ max_bits)).
Proof.
  induction rest as [|c rest IH]; intros d k Hd Hw Hn.
  - split; [by intros _ i c' H | intros _; by eexists].
  - assert (Hpos : 0 <= D.next_code d) by (destruct Hw; lia).
    cbn [decompress_loop]. unfold decompress_step.
    destruct (decode_entry_accepts d c Hd Hpos) as [[Hc [entry He]]|[Hc He]];
      rewrite He; cbn [bind].
    + destruct (table_dense_update max_bits variable_bits d entry Hd Hpos)
        as [Hd1 _].
      pose proof (decompress_update_width_inv max_bits variable_bits Hvalid
                    d entry Hw) as Hw1.
      assert (Hn1 : D.next_code (decompress_update max_bits variable_bits d entry)
                    = Z.min (256 + (k + 1)) (2 ^ max_bits)).
      { destruct (decompress_update_fields max_bits variable_bits d entry)
          as (_ & -> & _).
        by apply (next_after_count max_bits variable_bits Hvalid _
                    (D.current_code_size d)). }
      rewrite (IH _ (k + 1) Hd1 Hw1 Hn1). split.
      * intros H [|i] c'; cbn.
        -- intros [= <-]. lia.
        -- intros Hi. apply H in Hi. lia.
      * intros H i c' Hi. specialize (H (S i) c' Hi). lia.
    + split; [by intros [? ?]|]. intros H.
      specialize (H 0%nat c eq_refl). lia.
Qed.
End Acceptance.

(** X10: with valid parameters [lzw_decompress] returns, rather than
    raises, exactly on the lists whose first code is a byte value and whose
    code at position [i + 1] lies between 0 and
    [min (256 + i) (2 ^ max_bits)], in either width mode. *)
Theorem decompress_accepts (codes : list Z) (max_bits : Z)
    (variable_bits : bool) :
  9 <= max_bits ->
  (exists out, snd (lzw_decompress codes max_bits variable_bits) = Return out)
  <-> exists first rest,
        codes = first :: rest
        /\ 0 <= first < 256
        /\ forall (i : nat) c, rest !! i = Some c ->
             0 <= c <= Z.min (256 + Z.of_nat i) (2 ^ max_bits).
Proof.
  intros Hvalid. destruct codes as [|first rest].
  - split; [by intros [? ?] | by intros (? & ? & ? & _)].
  - unfold lzw_decompress, decompress_run. cbn [pop0 snd bind].
    destruct (decompress_start_inv max_bits variable_bits first)
      as [[Hf Hs]|[Hf Hs]]; rewrite Hs; cbn [bind].
    + pose proof (table_dense_start max_bits variable_bits first _ Hs)
        as [Hd _].
      match type of Hs with _ = Return ?d0 =>
        pose proof (decompress_loop_accepts max_bits variable_bits Hvalid
                      rest d0 0 Hd) as Hacc
      end.
      cbn [D.next_code D.current_code_size D.max_table_size] in Hacc.
      assert (H9 : 2 ^ 9 <= 2 ^ max_bits) by (apply Z.pow_le_mono_r; lia).
      specialize (Hacc (width_inv_init max_bits variable_bits Hvalid)
                       ltac:(lia)).
      split.
      * intros [out Hout]. exists first, rest. split; [done|]. split; [done|].
        intros i c Hi. apply (proj1 Hacc) in Hi; [lia|].
        destruct (decompress_loop _ _ _ rest); [by eexists | done].
      * intros (f & r & [= <- <-] & _ & H).
        destruct (proj2 Hacc) as [d' ->]; [|by eexists].
        intros i c Hi. apply H in Hi. lia.
    + split; [by intros [? ?]|]. intros (f & r & [= <- <-] & H & _). done.
Qed.

Lemma decompress_accepts_witness :
  exists out, snd (lzw_decompress [65; 256; 257; 66] 12 true) = Return out.
Proof.
  apply (decompress_accepts [65; 256; 257; 66] 12 true); [lia|].
  exists 65, [256; 257; 66]. split; [reflexivity|]. split; [lia|].
  intros [|[|[|[|i]]]] c; cbn; intros [= <-]; lia.
Defined.

(** ** Which exception, and when *)

(** X11: the three exceptions of [lzw_decompress].  [IndexError] means the
    list was empty; [KeyError k] means the first code [k] was not a byte
    value, whatever follows it (the code 256 included); [ValueError] means
    the loop met, after a prefix it accepted, a code that is negative or
    above the counter. *)
Theorem decompress_errors (codes : list Z) (max_bits : Z)
    (variable_bits : bool) :
  let outcome := snd (lzw_decompress codes max_bits variable_bits) in
  (outcome = Raise IndexError <-> codes = [])
  /\ (forall k, outcome = Raise (KeyError k)
                <-> exists rest, codes = k :: rest /\ ~ 0 <= k < 256)
  /\ (outcome = Raise ValueError
      <-> exists first before c after d,
            codes = first :: before ++ c :: after
            /\ decompress_run max_bits variable_bits first before = Return d
            /\ ~ 0 <= c <= D.next_code d).
Proof.
  cbn zeta. destruct codes as [|first rest].
  - cbn. split; [done|]. split.
    + intros k. split; [done | by intros (? & ? & _)].
    + split; [done | by intros (? & ? & ? & ? & ? & ? & _)].
  - unfold lzw_decompress. cbn [pop0 snd bind].
    destruct (decompress_start_inv max_bits variable_bits first)
      as [[Hf Hs]|[Hf Hs]].
    + pose proof (table_dense_start max_bits variable_bits first _ Hs)
        as [Hd Hc].
      match type of Hs with _ = Return ?d =>
        set (d0 := d) in *; assert (Hpos : 0 <= D.next_code d0) by (cbn; lia)
      end.
      assert (Hrun : forall l,
                 decompress_run max_bits variable_bits first l
                 = decompress_loop max_bits variable_bits d0 l).
      { intros l. unfold decompress_run. by rewrite Hs. }
      rewrite (Hrun rest).
      destruct (decompress_loop max_bits variable_bits d0 rest) as [d'|e]
        eqn:Hloop; cbn [bind].
      * split; [done|]. split.
        -- intros k. split; [done|]. intros (r & [= <- <-] & Hk). done.
        -- split; [done|].
           intros (f & before & c & after & d & [= <- ->] & Hb & Hbad).
           rewrite Hrun in Hb. rewrite decompress_loop_app, Hb in Hloop.
           cbn [bind decompress_loop] in Hloop.
           destruct (decompress_loop_inv max_bits variable_bits before _ _
                       Hb Hd Hpos Hc) as (Hd1 & Hpos1 & _).
           unfold decompress_step in Hloop.
           destruct (decode_entry_accepts d c Hd1 Hpos1) as [[? _]|[_ He]];
             [done|].
           by rewrite He in Hloop.
      * destruct (decompress_loop_raises max_bits variable_bits rest _ _
                    Hloop Hd Hpos)
          as (-> & before & c & after & d & -> & Hb & Hbad).
        split; [done|]. split.
        -- intros k. split; [done|]. intros (r & [= <- <-] & Hk). done.
        -- split; [|done]. intros _.
           exists first, before, c, after, d. by rewrite Hrun.
    + assert (Hrun : decompress_run max_bits variable_bits first rest
                     = Raise (KeyError first))
        by (unfold decompress_run; by rewrite Hs).
      rewrite Hrun. cbn [bind].
      split; [done|]. split.
      * intros k. split.
        -- intros [= <-]. by exists rest.
        -- by intros (r & [= <- <-] & _).
      * split; [done|].
        intros (f & before & c & after & d & [= <- ->] & Hb & _).
        unfold decompress_run in Hb. by rewrite Hs in Hb.
Qed.

(** ** The output of the decompressor *)

Lemma decompress_loop_output_grows (max_bits : Z) (variable_bits : bool)
    (codes : list Z) :
  forall d d',
    decompress_loop max_bits variable_bits d codes = Return d' ->
    D.decompressed_data d `prefix_of` D.decompressed_data d'.
Proof.
  induction codes as [|c codes IH]; intros d d'; cbn [decompress_loop].
  - by intros [= <-].
  - unfold decompress_step. destruct (decode_entry d c) as [entry|e]; [|done].
    cbn [bind]. intros H. apply IH in H.
    destruct (decompress_update_fields max_bits variable_bits d entry)
      as (_ & _ & _ & Hout & _).
    rewrite Hout in H. etrans; [|exact H]. by apply prefix_app_r.
Qed.

(** X12: when [lzw_decompress] returns, every code has produced at least
    one byte: the output is at least as long as the code list, and never
    empty. *)
Theorem decompress_output_length (codes : list Z) (out : list byte)
    (max_bits : Z) (variable_bits : bool) :
  snd (lzw_decompress codes max_bits variable_bits) = Return out ->
  (length codes <= length out)%nat /\ out <> [].
Proof.
  destruct codes as [|first rest]; [done|].
  unfold lzw_decompress, decompress_run. cbn [pop0 snd bind].
  destruct (decompress_start max_bits variable_bits first) as [d0|e] eqn:Hs;
    [|done].
  cbn [bind].
  destruct (decompress_loop max_bits variable_bits d0 rest) as [d'|e]
    eqn:Hloop; [|done].
  cbn [bind]. intros [= <-].
  destruct (table_dense_start max_bits variable_bits first _ Hs) as [Hd Hc].
  assert (Hpos : 0 <= D.next_code d0).
  { destruct (decompress_start_inv max_bits variable_bits first)
      as [[_ E]|[_ E]]; rewrite E in Hs; [|done].
    injection Hs as <-. cbn. lia. }
  assert (Hone : length (D.decompressed_data d0) = 1%nat).
  { destruct (decompress_start_inv max_bits variable_bits first)
      as [[_ E]|[_ E]]; rewrite E in Hs; [|done].
    by injection Hs as <-. }
  destruct (decompress_loop_inv max_bits variable_bits rest _ _
              Hloop Hd Hpos Hc) as (_ & _ & [_ _ Hall] & chunks & Hout & Hlen).
  pose proof (concat_length_ge _ Hall) as Hge.
  rewrite Hout, length_app, Hone, Hlen in Hge at 1.
  cbn [length]. split; [lia|]. intros E. rewrite E in Hge. cbn in Hge. lia.
Qed.

Lemma decompress_output_length_witness :
  (length [65; 256; 257] <= length (repeat x41 6))%nat.
Proof.
  apply (decompress_output_length [65; 256; 257] (repeat x41 6) 12 false).
  vm_compute. reflexivity.
Defined.

Lemma decompress_loop_literals (max_bits : Z) (variable_bits : bool)
    (r : list byte) :
  forall d,
    table_singles d ->
    exists d',
      decompress_loop max_bits variable_bits d (map byte_to_Z r) = Return d'
      /\ D.decompressed_data d'
         = D.decompressed_data d ++ map (fun b => [b]) r.
Proof.
  induction r as [|b r IH]; intros d Hd.
  - exists d. by rewrite app_nil_r.
  - cbn [map decompress_loop].
    assert (He : decode_entry d (byte_to_Z b) = Return [b]).
    { unfold decode_entry. destruct Hd as [Hd _].
      rewrite (Hd _ (byte_to_Z_range b)). by rewrite bytes1_byte_to_Z. }
    assert (Hstep : decompress_step max_bits variable_bits d (byte_to_Z b)
                    = Return (decompress_update max_bits variable_bits d [b]))
      by (unfold decompress_step; by rewrite He).
    rewrite Hstep. cbn [bind].
    destruct (IH _ (table_singles_step max_bits variable_bits _ _ _ Hd Hstep))
      as (d' & Hloop & Hout).
    exists d'. split; [done|].
    destruct (decompress_update_fields max_bits variable_bits d [b])
      as (_ & _ & _ & Hout1 & _).
    by rewrite Hout, Hout1, <- app_assoc.
Qed.

(** X13: a list of byte values used as codes decodes to those bytes, for
    every parameter pair: the 256 initial codes stay valid whatever the
    table has become. *)
Theorem decompress_literals (b : byte) (r : list byte) (max_bits : Z)
    (variable_bits : bool) :
  lzw_decompress (map byte_to_Z (b :: r)) max_bits variable_bits
  = (map byte_to_Z r, Return (b :: r)).
Proof.
  unfold lzw_decompress, decompress_run. cbn [map pop0 bind]. f_equal.
  destruct (decompress_start_inv max_bits variable_bits (byte_to_Z b))
    as [[_ Hs]|[Hf _]]; [|by destruct Hf; apply byte_to_Z_range].
  rewrite Hs, bytes1_byte_to_Z. cbn [bind].
  match goal with |- context [decompress_loop _ _ ?d0 _] =>
    destruct (decompress_loop_literals max_bits variable_bits r d0)
      as (d' & -> & Hout)
  end.
  - split; cbn [D.table D.next_code]; [|lia].
    intros i Hi. apply initial_table_lookup. by split.
  - cbn [bind D.decompressed_data] in *. rewrite Hout. cbn [app concat].
    f_equal. f_equal. clear. induction r as [|b' r IH]; [done|].
    cbn. by rewrite IH.
Qed.

(** X14: decoding is incremental.  If the codes so far make
    [lzw_decompress] raise, so do they with any codes after them; if they
    decode to [out], whatever the longer list decodes to starts with
    [out]. *)
Theorem decompress_streaming (c : Z) (cs cs' : list Z) (max_bits : Z)
    (variable_bits : bool) :
  match snd (lzw_decompress (c :: cs) max_bits variable_bits) with
  | Raise e =>
      snd (lzw_decompress (c :: cs ++ cs') max_bits variable_bits) = Raise e
  | Return out =>
      forall out',
        snd (lzw_decompress (c :: cs ++ cs') max_bits variable_bits)
        = Return out' ->
        out `prefix_of` out'
  end.
Proof.
  unfold lzw_decompress, decompress_run. cbn [pop0 snd bind].
  destruct (decompress_start max_bits variable_bits c) as [d0|e]; [|done].
  cbn [bind]. rewrite decompress_loop_app.
  destruct (decompress_loop max_bits variable_bits d0 cs) as [d1|e]; [|done].
  cbn [bind]. intros out'.
  destruct (decompress_loop max_bits variable_bits d1 cs') as [d'|e] eqn:Hloop;
    [|done].
  cbn [bind]. intros [= <-].
  destruct (decompress_loop_output_grows _ _ _ _ _ Hloop) as [chunks ->].
  rewrite concat_app. by apply prefix_app_r.
Qed.

(** ** Parameters below the documented range *)

(** X15: the round trip does not need [max_bits >= 9].  For a smaller
    [max_bits], where the dictionary is full from the start (fixed mode) or
    the width starts above [max_bits] (adaptive mode), every non-empty input
    still decompresses to itself. *)
Theorem round_trip_small_max_bits (x : list byte) (max_bits : Z)
    (variable_bits : bool) :
  0 <= max_bits < 9 -> x <> [] -> round_trip x max_bits variable_bits.
Proof.
  intros _ Hx.
  destruct (sync_run max_bits variable_bits x Hx)
    as (c & cs & d & Hcodes & Hrun & Hsync).
  exists (c :: cs). split; [exact Hcodes|].
  rewrite (decompress_of_run _ _ _ _ _ Hrun). cbn [snd].
  f_equal. apply (sync_output _ _ _ Hsync).
Qed.

Lemma round_trip_small_max_bits_witness : round_trip TOBEORNOT 8 false.
Proof.
  apply (round_trip_small_max_bits TOBEORNOT 8 false); [lia | discriminate].
Defined.

Lemma initial_trie_pair (max_bits : Z) (variable_bits : bool) (b b' : byte) :
  search (C.trie (compress_init max_bits variable_bits)) ([b] ++ [b']) = None.
Proof.
  destruct (search _ _) as [c|] eqn:E; [|done].
  apply initial_trie_search in E as [Hc E].
  destruct (bytes1_range c Hc) as (b0 & Hb & _). by rewrite Hb in E.
Qed.

Lemma compress_full_table (max_bits : Z) (p : list byte) :
  0 <= max_bits <= 8 ->
  let s := compress_loop max_bits false p in
  C.trie s = C.trie (compress_init max_bits false)
  /\ C.max_table_size s = 2 ^ max_bits
  /\ C.current_code_size s = max_bits
  /\ compress_flush s = map (fun b => Some (byte_to_Z b)) p
  /\ (C.current_bytes s = [] \/ exists b, C.current_bytes s = [b]).
Proof.
  intros Hmb. cbn zeta. induction p as [|b' p IH] using rev_ind.
  - change (compress_loop max_bits false []) with (compress_init max_bits false).
    destruct (compress_init_fields max_bits false) as (Hc & Hd & Hw & Hm).
    split; [reflexivity|]. split; [exact Hm|]. split; [exact Hw|].
    split; [|left; exact Hc].
    unfold compress_flush. rewrite Hc. exact Hd.
  - rewrite compress_loop_snoc.
    generalize dependent (compress_loop max_bits false p). intros s IH.
    destruct IH as (Ht & Hm & Hw & Hf & Hcur).
    pose proof (enc_singles _ (enc_inv_init max_bits false)) as Hs.
    unfold compress_flush in Hf.
    destruct Hcur as [Hc|[b Hc]]; rewrite Hc in Hf.
    + assert (Hnew : search (C.trie s) (C.current_bytes s ++ [b'])
                     = Some (byte_to_Z b'))
        by (rewrite Ht, Hc; apply Hs).
      rewrite (compress_step_hit _ _ _ _ _ Hnew).
      unfold compress_flush.
      cbn [C.trie C.max_table_size C.current_code_size C.current_bytes
           C.compressed_data].
      split; [exact Ht|]. split; [exact Hm|]. split; [exact Hw|].
      rewrite Hc. cbn [app].
      split; [|right; by exists b'].
      rewrite Ht, Hs, Hf, map_app. reflexivity.
    + assert (Hnew : search (C.trie s) (C.current_bytes s ++ [b']) = None)
        by (rewrite Ht, Hc; apply initial_trie_pair).
      destruct (compress_step_miss max_bits false _ b' Hnew)
        as (Ht' & _ & Hc' & Hd' & Hw' & Hm').
      assert (Hfull : (next_code (C.trie s) <? C.max_table_size s) = false).
      { rewrite Ht, initial_next_code, Hm. apply Z.ltb_ge.
        assert (2 ^ max_bits <= 2 ^ 8) by (apply Z.pow_le_mono_r; lia). lia. }
      rewrite Hfull in Ht'.
      assert (Hgrow : must_grow max_bits false
                        (next_after (next_code (C.trie s)) (C.max_table_size s))
                        (C.max_table_size s) (C.current_code_size s) = false)
        by reflexivity.
      rewrite Hgrow in Hw', Hm'.
      split; [by rewrite Ht'|]. split; [by rewrite Hm'|].
      split; [by rewrite Hw'|].
      split; [|right; by exists b'].
      unfold compress_flush. rewrite Hc', Hd', Ht', Hc, Hf, Ht, Hs, map_app.
      reflexivity.
Qed.

(** X16: in the fixed mode with [max_bits <= 8] the table is full from the
    start, nothing is ever registered, and [lzw_compress] returns one code
    per byte, the byte's own value. *)
Theorem compress_identity_coding (x : list byte) (max_bits : Z) :
  0 <= max_bits <= 8 ->
  lzw_compress x max_bits false
  = (map (fun b => Some (byte_to_Z b)) x, max_bits).
Proof.
  intros Hmb.
  destruct (compress_full_table max_bits x Hmb) as (_ & _ & Hw & Hf & _).
  unfold lzw_compress. by rewrite Hw, Hf.
Qed.

Lemma compress_identity_coding_witness :
  lzw_compress [x41; x41; x41] 8 false = ([Some 65; Some 65; Some 65], 8).
Proof. apply (compress_identity_coding [x41; x41; x41] 8). lia. Defined.

Lemma compress_step_variable_small (max_bits : Z) (s : C.state) (b : byte) :
  max_bits <= 9 -> C.current_code_size s = 9 ->
  compress_step max_bits true s b = compress_step 9 true s b
  /\ C.current_code_size (compress_step 9 true s b) = 9.
Proof.
  intros Hmb Hw. split.
  - unfold compress_step, must_grow. rewrite Hw.
    replace (9 <? max_bits) with false by (symmetry; apply Z.ltb_ge; lia).
    replace (9 <? 9) with false by reflexivity. reflexivity.
  - destruct (compress_step_width 9 true s b) as [->|(_ & Hlt & _)]; [done|lia].
Qed.

Lemma compress_loop_variable_small (max_bits : Z) (p : list byte) :
  max_bits <= 9 ->
  compress_loop max_bits true p = compress_loop 9 true p
  /\ C.current_code_size (compress_loop 9 true p) = 9.
Proof.
  intros Hmb. induction p as [|b p [IH Hw]] using rev_ind.
  - change (compress_loop max_bits true []) with (compress_init max_bits true).
    change (compress_loop 9 true []) with (compress_init 9 true).
    split; [apply compress_init_variable|].
    by destruct (compress_init_fields 9 true) as (_ & _ & -> & _).
  - rewrite !compress_loop_snoc, IH.
    by apply compress_step_variable_small.
Qed.

(** X17: in the adaptive mode a [max_bits] of 9 or less is not looked at:
    the run is the run for [max_bits = 9], and the reported width is 9 even
    when [max_bits] is smaller. *)
Theorem variable_mode_ignores_small_max_bits (x : list byte) (max_bits : Z) :
  max_bits <= 9 ->
  lzw_compress x max_bits true = lzw_compress x 9 true
  /\ snd (lzw_compress x max_bits true) = 9.
Proof.
  intros Hmb.
  destruct (compress_loop_variable_small max_bits x Hmb) as [E Hw].
  unfold lzw_compress. rewrite E. cbn [snd]. by split.
Qed.

Lemma variable_mode_ignores_small_max_bits_witness :
  lzw_compress TOBEORNOT 5 true = lzw_compress TOBEORNOT 9 true
  /\ snd (lzw_compress TOBEORNOT 5 true) = 9.
Proof. apply (variable_mode_ignores_small_max_bits TOBEORNOT 5). lia. Defined.
